(** * Everhour API client: URL templating and request dispatch

    A shallow embedding of [EverhourApiClient] (constructor, [createUrl],
    [apiRequest]) and of the endpoint wrappers built on them, together with
    the platform operations the class calls while it builds the string it
    hands to the [URL] constructor ([String.prototype.match] with the class's
    global regular expression, [String.prototype.replace], [encodeURIComponent],
    [URLSearchParams]).

    Strings are ECMAScript strings: sequences of 16-bit code units.  What the
    platform decides alone is a parameter of the development: how a number
    prints, what [new URL(input, base)] makes of its two arguments, what
    [JSON.stringify] and [JSON.parse] return, and what the transport answers. *)

From Stdlib Require Import List NArith ZArith String Ascii Bool Arith Lia.
From Stdlib Require Import DecimalString DecimalN Permutation.
Import ListNotations.

Set Implicit Arguments.

(* ================================================================= *)
(** ** Strings *)

Definition char16 := N.
Definition jsstring := list char16.

Definition lit (s : string) : jsstring :=
  map N_of_ascii (list_ascii_of_string s).

Definition LBRACE : char16 := 123%N.
Definition RBRACE : char16 := 125%N.
Definition DOLLAR : char16 := 36%N.
Definition PERCENT : char16 := 37%N.

Fixpoint str_eqb (a b : jsstring) : bool :=
  match a, b with
  | [], [] => true
  | x :: a', y :: b' => N.eqb x y && str_eqb a' b'
  | _, _ => false
  end.

Fixpoint mem (k : jsstring) (l : list jsstring) : bool :=
  match l with
  | [] => false
  | x :: l' => str_eqb k x || mem k l'
  end.

Definition has_char (c : char16) (s : jsstring) : bool :=
  existsb (N.eqb c) s.

(** Decimal form of an integer, as [Number::toString] and [BigInt::toString]
    give it for integers (below 10^21 for numbers). *)
Definition decimal_N (n : N) : jsstring :=
  lit (NilZero.string_of_uint (N.to_uint n)).

Definition decimal_Z (z : Z) : jsstring :=
  lit (NilZero.string_of_int (Z.to_int z)).

(* ================================================================= *)
(** ** Completions: a call returns or throws *)

Inductive error : Type :=
| RequiredError (field : jsstring) (message : jsstring)
| URIError
| TypeError
| SyntaxError
| Error (message : jsstring).

Inductive completion (A : Type) : Type :=
| Return (a : A)
| Throw (e : error).

Arguments Return {A} a.
Arguments Throw {A} e.

Definition bind {A B} (c : completion A) (k : A -> completion B) : completion B :=
  match c with
  | Return a => k a
  | Throw e => Throw e
  end.

Notation "x <- c ;; k" := (bind c (fun x => k))
  (at level 61, c at next level, right associativity).

(** [xs.forEach(f)] where [f] updates an accumulator and may throw. *)
Fixpoint forEach {A S} (f : S -> A -> completion S) (xs : list A) (acc : S)
  : completion S :=
  match xs with
  | [] => Return acc
  | x :: xs' => acc' <- f acc x ;; forEach f xs' acc'
  end.

(* ================================================================= *)
(** ** Percent-encoding *)

Definition is_digit (c : char16) : bool := (48 <=? c)%N && (c <=? 57)%N.
Definition is_upper (c : char16) : bool := (65 <=? c)%N && (c <=? 90)%N.
Definition is_lower (c : char16) : bool := (97 <=? c)%N && (c <=? 122)%N.
Definition is_alnum (c : char16) : bool := is_digit c || is_upper c || is_lower c.

(** uriUnescaped: alphanumerics and the marks [- _ . ! ~ * ' ( )]. *)
Definition uriUnescaped (c : char16) : bool :=
  is_alnum c || has_char c (lit "-_.!~*'()").

(** What the application/x-www-form-urlencoded serializer leaves alone. *)
Definition form_unescaped (c : char16) : bool :=
  is_alnum c || has_char c (lit "*-._").

Definition hex_digits : jsstring := lit "0123456789ABCDEF".

Definition hex_digit (d : N) : char16 := nth (N.to_nat d) hex_digits 48%N.

Definition percent_byte (b : N) : jsstring :=
  [PERCENT; hex_digit (N.land (N.shiftr b 4) 15); hex_digit (N.land b 15)].

(** UTF-8 octets of a code point. *)
Definition utf8 (cp : N) : list N :=
  if (cp <? 128)%N then [cp]
  else if (cp <? 2048)%N then
    [N.lor 192 (N.shiftr cp 6); N.lor 128 (N.land cp 63)]
  else if (cp <? 65536)%N then
    [N.lor 224 (N.shiftr cp 12);
     N.lor 128 (N.land (N.shiftr cp 6) 63);
     N.lor 128 (N.land cp 63)]
  else
    [N.lor 240 (N.shiftr cp 18);
     N.lor 128 (N.land (N.shiftr cp 12) 63);
     N.lor 128 (N.land (N.shiftr cp 6) 63);
     N.lor 128 (N.land cp 63)].

Definition is_lead (c : char16) : bool := (55296 <=? c)%N && (c <=? 56319)%N.
Definition is_trail (c : char16) : bool := (56320 <=? c)%N && (c <=? 57343)%N.

Definition surrogate_pair (hi lo : char16) : N :=
  (65536 + (hi - 55296) * 1024 + (lo - 56320))%N.

Definition percent_utf8 (cp : N) : jsstring :=
  flat_map percent_byte (utf8 cp).

(** ECMAScript [Encode(string, unescapedSet)]: an unpaired surrogate throws
    a URIError. *)
Fixpoint Encode (unescaped : char16 -> bool) (s : jsstring) : completion jsstring :=
  match s with
  | [] => Return []
  | c :: s' =>
    if unescaped c then
      r <- Encode unescaped s' ;; Return (c :: r)
    else if is_trail c then Throw URIError
    else if is_lead c then
      match s' with
      | d :: s'' =>
        if is_trail d then
          r <- Encode unescaped s'' ;; Return (percent_utf8 (surrogate_pair c d) ++ r)
        else Throw URIError
      | [] => Throw URIError
      end
    else
      r <- Encode unescaped s' ;; Return (percent_utf8 c ++ r)
  end.

(** Conversion to a USVString (Web IDL): unpaired surrogates become U+FFFD.
    The result is the list of code points. *)
Fixpoint scalar_values (s : jsstring) : list N :=
  match s with
  | [] => []
  | c :: s' =>
    if is_trail c then 65533%N :: scalar_values s'
    else if is_lead c then
      match s' with
      | d :: s'' =>
        if is_trail d then surrogate_pair c d :: scalar_values s''
        else 65533%N :: scalar_values s'
      | [] => [65533%N]
      end
    else c :: scalar_values s'
  end.

(** The urlencoded byte serializer: space becomes [+]. *)
Definition form_byte (b : N) : jsstring :=
  if (b =? 32)%N then lit "+"
  else if form_unescaped b then [b]
  else percent_byte b.

Definition form_urlencode (s : jsstring) : jsstring :=
  flat_map form_byte (flat_map utf8 (scalar_values s)).

(* ================================================================= *)
(** ** [String.prototype.replace] with a string pattern *)

Fixpoint strip_prefix (pat s : jsstring) : option jsstring :=
  match pat, s with
  | [], _ => Some s
  | p :: pat', c :: s' => if (p =? c)%N then strip_prefix pat' s' else None
  | _ :: _, [] => None
  end.

(** First occurrence of [pat] in [s]: what precedes it and what follows it. *)
Fixpoint split_first (pat s : jsstring) : option (jsstring * jsstring) :=
  match strip_prefix pat s with
  | Some rest => Some ([], rest)
  | None =>
    match s with
    | [] => None
    | c :: s' =>
      match split_first pat s' with
      | Some (before, after) => Some (c :: before, after)
      | None => None
      end
    end
  end.

(** [GetSubstitution] when the pattern is a string: there are no captures, so
    only [$$], [$&], [$`] and [$'] are special in the replacement text. *)
Fixpoint GetSubstitution (matched preceding following templ : jsstring) : jsstring :=
  match templ with
  | [] => []
  | c :: t =>
    if (c =? DOLLAR)%N then
      match t with
      | d :: t' =>
        if (d =? DOLLAR)%N then DOLLAR :: GetSubstitution matched preceding following t'
        else if (d =? 38)%N then matched ++ GetSubstitution matched preceding following t'
        else if (d =? 96)%N then preceding ++ GetSubstitution matched preceding following t'
        else if (d =? 39)%N then following ++ GetSubstitution matched preceding following t'
        else DOLLAR :: GetSubstitution matched preceding following t
      | [] => [DOLLAR]
      end
    else c :: GetSubstitution matched preceding following t
  end.

Definition String_replace (s searchValue replaceValue : jsstring) : jsstring :=
  match split_first searchValue s with
  | None => s
  | Some (preceding, following) =>
    preceding
      ++ GetSubstitution searchValue preceding following replaceValue
      ++ following
  end.

(* ================================================================= *)
(** ** The regular expression [/(?<=\{)[^}]+(?=})/g] *)

(** A RegExp object: the pattern is fixed, [lastIndex] is its mutable slot. *)
Record RegExp : Type := { lastIndex : nat }.

(** Longest run of characters other than [}] at the head of [s]. *)
Fixpoint run_to_close (s : jsstring) : jsstring * jsstring :=
  match s with
  | [] => ([], [])
  | c :: s' =>
    if (c =? RBRACE)%N then ([], s)
    else let (run, rest) := run_to_close s' in (c :: run, rest)
  end.

(** The pattern tried at one position: the character before is [{], then one
    or more characters other than [}], then [}] follows.  The greedy run is the
    only candidate: a shorter one is followed by a character that is not [}]. *)
Definition match_here (prev : option char16) (s : jsstring) : option jsstring :=
  match prev with
  | Some p =>
    if (p =? LBRACE)%N then
      match run_to_close s with
      | (c :: run, _ :: _) => Some (c :: run)
      | _ => None
      end
    else None
  | None => None
  end.

(** Leftmost match at or after index [i], where [s] is the input from [i] on:
    the index the match starts at, and the matched text. *)
Fixpoint search_from (prev : option char16) (s : jsstring) (i : nat)
  : option (nat * jsstring) :=
  match match_here prev s with
  | Some m => Some (i, m)
  | None =>
    match s with
    | [] => None
    | c :: s' => search_from (Some c) s' (S i)
    end
  end.

Definition char_before (s : jsstring) (i : nat) : option char16 :=
  match i with
  | O => None
  | S j => nth_error s j
  end.

(** [RegExpBuiltinExec] for the global expression: starts at [lastIndex], leaves
    it at the end of the match, or at 0 when nothing matches. *)
Definition RegExp_exec (re : RegExp) (s : jsstring) : option jsstring * RegExp :=
  let i := lastIndex re in
  if List.length s <? i then (None, {| lastIndex := 0 |})
  else
    match search_from (char_before s i) (skipn i s) i with
    | None => (None, {| lastIndex := 0 |})
    | Some (start, m) => (Some m, {| lastIndex := start + List.length m |})
    end.

(** The loop of [RegExp.prototype[Symbol.match]] for a global expression. *)
Fixpoint match_loop (fuel : nat) (re : RegExp) (s : jsstring) (A : list jsstring)
  : option (list jsstring) * RegExp :=
  match fuel with
  | O => (None, re)
  | S fuel' =>
    match RegExp_exec re s with
    | (None, re') =>
      (match A with [] => None | _ => Some A end, re')
    | (Some m, re') =>
      let re'' :=
        match m with
        | [] => {| lastIndex := S (lastIndex re') |}
        | _ => re'
        end in
      match_loop fuel' re'' s (A ++ [m])
    end
  end.

(** [s.match(re)]: the [lastIndex] of [re] is set to 0 first, whatever it was;
    every turn of the loop moves it forward, so [length s + 1] turns are
    enough ([String_match_spec]). *)
Definition String_match (s : jsstring) (re : RegExp)
  : option (list jsstring) * RegExp :=
  match_loop (S (List.length s)) {| lastIndex := 0 |} s [].

(** The same matches in one pass over the text.  [opened] is [Some acc] when a
    [{] has been seen and [acc] holds, reversed, the characters read since. *)
Fixpoint scan (opened : option jsstring) (s : jsstring) : list jsstring :=
  match s with
  | [] => []
  | c :: s' =>
    match opened with
    | None => scan (if (c =? LBRACE)%N then Some [] else None) s'
    | Some acc =>
      if (c =? RBRACE)%N then
        match acc with
        | [] => scan None s'
        | _ :: _ => rev acc :: scan None s'
        end
      else scan (Some (c :: acc)) s'
    end
  end.

Definition placeholders (path : jsstring) : list jsstring := scan None path.

(* ================================================================= *)
(** ** [URLSearchParams] *)

Definition URLSearchParams := list (jsstring * jsstring).

Definition scalar_string (s : jsstring) : jsstring :=
  flat_map (fun cp =>
              if (cp <? 65536)%N then [cp]
              else [(55296 + N.shiftr (cp - 65536) 10)%N;
                    (56320 + N.land (cp - 65536) 1023)%N])
           (scalar_values s).

Definition params_append (params : URLSearchParams) (name value : jsstring)
  : URLSearchParams :=
  params ++ [(scalar_string name, scalar_string value)].

Definition params_size (params : URLSearchParams) : nat := List.length params.

Fixpoint params_toString (params : URLSearchParams) : jsstring :=
  match params with
  | [] => []
  | [(n, v)] => form_urlencode n ++ lit "=" ++ form_urlencode v
  | (n, v) :: rest =>
    form_urlencode n ++ lit "=" ++ form_urlencode v ++ lit "&" ++ params_toString rest
  end.

(* ================================================================= *)
(** ** Objects with string fields that can be sealed and frozen *)

Record StringRecord : Type := {
  fields : list (jsstring * jsstring);
  extensible : bool;
  writable : bool
}.

Definition Object_seal (o : StringRecord) : StringRecord :=
  {| fields := fields o; extensible := false; writable := writable o |}.

Definition Object_freeze (o : StringRecord) : StringRecord :=
  {| fields := fields o; extensible := false; writable := false |}.

Fixpoint has_field (k : jsstring) (fs : list (jsstring * jsstring)) : bool :=
  match fs with
  | [] => false
  | (k', _) :: fs' => str_eqb k k' || has_field k fs'
  end.

Fixpoint write_field (k v : jsstring) (fs : list (jsstring * jsstring))
  : list (jsstring * jsstring) :=
  match fs with
  | [] => []
  | (k', v') :: fs' =>
    if str_eqb k k' then (k', v) :: fs' else (k', v') :: write_field k v fs'
  end.

(** [o[k] = v] in strict code: a write that cannot be done throws. *)
Definition set_field (o : StringRecord) (k v : jsstring) : completion StringRecord :=
  if has_field k (fields o) then
    if writable o then
      Return {| fields := write_field k v (fields o);
                extensible := extensible o; writable := writable o |}
    else Throw TypeError
  else if extensible o then
    Return {| fields := fields o ++ [(k, v)];
              extensible := extensible o; writable := writable o |}
  else Throw TypeError.

(* ================================================================= *)
(** ** The client *)

Record Props : Type := {
  basePath : jsstring;
  version : jsstring;
  extractParams : RegExp
}.

Record EverhourApiClient : Type := {
  props : Props;
  headers : StringRecord
}.

(** [Object.freeze] on [props] is shallow: the slots of [props] are fixed, the
    [lastIndex] of the expression it holds is not. *)
Definition with_extractParams (this : EverhourApiClient) (re : RegExp)
  : EverhourApiClient :=
  {| props := {| basePath := basePath (props this);
                 version := version (props this);
                 extractParams := re |};
     headers := headers this |}.

Definition initial_props : Props :=
  {| basePath := lit "https://api.everhour.com";
     version := lit "1.2";
     extractParams := {| lastIndex := 0 |} |}.

Definition initial_headers (p : Props) : StringRecord :=
  Object_seal
    {| fields := [ (lit "Content-Type", lit "application/json");
                   (lit "X-Api-Key", lit "");
                   (lit "X-Accept-Version", version p) ];
       extensible := true;
       writable := true |}.

(** [new EverhourApiClient(apiKey)]: the field initialisers, then the body of
    the constructor. *)
Definition new_EverhourApiClient (apiKey : jsstring) : completion EverhourApiClient :=
  let p := initial_props in
  let h := initial_headers p in
  h' <- set_field h (lit "X-Api-Key") apiKey ;;
  Return {| props := p; headers := Object_freeze h' |}.

Inductive method : Type := DELETE | GET | POST | PUT.

Record RequestInit : Type := {
  init_method : method;
  init_headers : StringRecord;
  init_body : option jsstring
}.

Record Response : Type := {
  status : N;
  response_body : jsstring
}.

Section Client.

(** The platform's part. *)
Variable number : Type.
Variable Number_toString : number -> jsstring.
Variable URL : Type.
Variable new_URL : jsstring -> jsstring -> completion URL.
Variable payload : Type.
Variable JSON_stringify : payload -> completion jsstring.
Variable json : Type.
Variable JSON_parse : jsstring -> completion json.
Variable fetch : URL -> RequestInit -> completion Response.

(** Values a caller can store in a parameter object.  An object or function
    is known here by whether it is callable and by what converting it to a
    string gives. *)
Inductive jsval : Type :=
| VUndefined
| VNull
| VBoolean (b : bool)
| VNumber (n : number)
| VString (s : jsstring)
| VSymbol
| VBigInt (z : Z)
| VObject (callable : bool) (str : completion jsstring).

Definition typeof (v : jsval) : jsstring :=
  match v with
  | VUndefined => lit "undefined"
  | VNull => lit "object"
  | VBoolean _ => lit "boolean"
  | VNumber _ => lit "number"
  | VString _ => lit "string"
  | VSymbol => lit "symbol"
  | VBigInt _ => lit "bigint"
  | VObject callable _ => if callable then lit "function" else lit "object"
  end.

Definition ToString (v : jsval) : completion jsstring :=
  match v with
  | VUndefined => Return (lit "undefined")
  | VNull => Return (lit "null")
  | VBoolean b => Return (if b then lit "true" else lit "false")
  | VNumber n => Return (Number_toString n)
  | VString s => Return s
  | VSymbol => Throw TypeError
  | VBigInt z => Return (decimal_Z z)
  | VObject _ str => str
  end.

Definition encodeURIComponent (v : jsval) : completion jsstring :=
  s <- ToString v ;; Encode uriUnescaped s.

(** A parameter object: its own entries, in the order [Object.entries]
    lists them. *)
Definition object := list (jsstring * jsval).

Fixpoint get_own (o : object) (k : jsstring) : option jsval :=
  match o with
  | [] => None
  | (k', v) :: o' => if str_eqb k k' then Some v else get_own o' k
  end.

Definition Object_prototype_functions : list jsstring :=
  map lit [ "constructor"; "hasOwnProperty"; "isPrototypeOf";
            "propertyIsEnumerable"; "toLocaleString"; "toString"; "valueOf";
            "__defineGetter__"; "__defineSetter__"; "__lookupGetter__";
            "__lookupSetter__" ]%string.

(** [typeof o[k]] for an object literal: an own entry, else what
    [Object.prototype] has under that name, else undefined. *)
Definition typeof_get (o : object) (k : jsstring) : jsstring :=
  match get_own o k with
  | Some v => typeof v
  | None =>
    if mem k Object_prototype_functions then lit "function"
    else if str_eqb k (lit "__proto__") then lit "object"
    else lit "undefined"
  end.

Definition accepted_type (ty : jsstring) : bool :=
  str_eqb ty (lit "string") || str_eqb ty (lit "number").

Definition required_message (param ty : jsstring) : jsstring :=
  lit "Required parameter " ++ param
    ++ lit " was undefined or had the wrong type: " ++ ty ++ lit ".".

(** The loop over [requiredParams]. *)
Fixpoint check_required (pathParams : object) (requiredParams : list jsstring)
  : completion unit :=
  match requiredParams with
  | [] => Return tt
  | param :: rest =>
    if negb (accepted_type (typeof_get pathParams param)) then
      Throw (RequiredError param
               (required_message param (typeof_get pathParams param)))
    else check_required pathParams rest
  end.

Definition token (param : jsstring) : jsstring :=
  lit "{" ++ param ++ lit "}".

Definition substitute_entry (path : jsstring) (entry : jsstring * jsval)
  : completion jsstring :=
  let (param, value) := entry in
  r <- encodeURIComponent value ;;
  Return (String_replace path (token param) r).

Definition append_entry (params : URLSearchParams) (entry : jsstring * jsval)
  : completion URLSearchParams :=
  let (param, value) := entry in
  match value with
  | VUndefined => Return params
  | _ => r <- encodeURIComponent value ;; Return (params_append params param r)
  end.

Definition with_query (path : jsstring) (params : URLSearchParams) : jsstring :=
  if 0 <? params_size params then path ++ lit "?" ++ params_toString params
  else path.

Definition createUrl (this : EverhourApiClient) (path : jsstring)
           (pathParams searchParams : object)
  : completion URL * EverhourApiClient :=
  let (requiredParams, re) := String_match path (extractParams (props this)) in
  ( _ <- match requiredParams with
         | Some names => check_required pathParams names
         | None => Return tt
         end ;;
    path1 <- forEach substitute_entry pathParams path ;;
    params <- forEach append_entry searchParams [] ;;
    new_URL (with_query path1 params) (basePath (props this)),
    with_extractParams this re ).

Definition failure_message (st : N) (text : jsstring) : jsstring :=
  lit "Status: " ++ decimal_N st ++ lit ", Text: '" ++ text ++ lit "'".

Definition request_options (this : EverhourApiClient) (m : method)
           (body : option payload) : completion RequestInit :=
  match body with
  | None =>
    Return {| init_method := m; init_headers := headers this; init_body := None |}
  | Some p =>
    s <- JSON_stringify p ;;
    Return {| init_method := m; init_headers := headers this; init_body := Some s |}
  end.

Definition on_response (response : Response) : completion json :=
  if (200 <=? status response)%N && (status response <? 300)%N then
    JSON_parse (response_body response)
  else
    Throw (Error (failure_message (status response) (response_body response))).

(** [apiRequest]: the outcome, and the calls given to the transport. *)
Definition apiRequest (this : EverhourApiClient) (m : method) (url : URL)
           (body : option payload)
  : completion json * list (URL * RequestInit) :=
  match request_options this m body with
  | Throw e => (Throw e, [])
  | Return options =>
    (response <- fetch url options ;; on_response response, [(url, options)])
  end.

(** An endpoint wrapper: [const url = client.createUrl(path, pathParams,
    searchParams); return await client.apiRequest(m, url, body)]. *)
Definition endpoint (client : EverhourApiClient) (m : method) (path : jsstring)
           (pathParams searchParams : object) (body : option payload)
  : (completion json * list (URL * RequestInit)) * EverhourApiClient :=
  match createUrl client path pathParams searchParams with
  | (Throw e, client') => ((Throw e, []), client')
  | (Return url, client') => (apiRequest client' m url body, client')
  end.

End Client.

Arguments VUndefined {number}.
Arguments VNull {number}.
Arguments VBoolean {number} b.
Arguments VNumber {number} n.
Arguments VString {number} s.
Arguments VSymbol {number}.
Arguments VBigInt {number} z.
Arguments VObject {number} callable str.

(* ================================================================= *)
(** ** Path templates as the endpoints write them *)

(** A template read as literal text and [{name}] holes. *)
Inductive segment : Type :=
| Lit (text : jsstring)
| Hole (name : jsstring).

Definition render_segment (g : segment) : jsstring :=
  match g with
  | Lit text => text
  | Hole name => LBRACE :: name ++ [RBRACE]
  end.

Definition render (segs : list segment) : jsstring :=
  flat_map render_segment segs.

Fixpoint hole_names (segs : list segment) : list jsstring :=
  match segs with
  | [] => []
  | Lit _ :: segs' => hole_names segs'
  | Hole n :: segs' => n :: hole_names segs'
  end.

(** Every [{] of the template opens a non-empty name free of braces. *)
Definition wf_segment (g : segment) : bool :=
  match g with
  | Lit text => negb (has_char LBRACE text)
  | Hole name =>
    match name with
    | [] => false
    | _ => negb (has_char LBRACE name) && negb (has_char RBRACE name)
    end
  end.

Definition wf_template (segs : list segment) : bool := forallb wf_segment segs.

(* ================================================================= *)
(** ** A platform to run the model on *)

Module Sample.

(** Integer numbers, printed in decimal. *)
Definition number : Type := Z.
Definition Number_toString : number -> jsstring := decimal_Z.

(** A URL kept as the two arguments of its constructor. *)
Record URL : Type := { input : jsstring; base : jsstring }.
Definition new_URL (i b : jsstring) : completion URL :=
  Return {| input := i; base := b |}.

(** Payloads and results that are JSON text already. *)
Definition payload : Type := jsstring.
Definition JSON_stringify (p : payload) : completion jsstring := Return p.
Definition json : Type := jsstring.
Definition JSON_parse (s : jsstring) : completion json :=
  match s with
  | [] => Throw SyntaxError
  | _ => Return s
  end.

(** A transport that answers every call with the given response. *)
Definition fetch (r : Response) (_ : URL) (_ : RequestInit) : completion Response :=
  Return r.

(** The client the README builds, with the key of the class comment. *)
Definition client : EverhourApiClient :=
  match new_EverhourApiClient (lit "abcd-efgh-1234567-7890ab-cdefgh12") with
  | Return c => c
  | Throw _ => {| props := initial_props; headers := initial_headers initial_props |}
  end.

Definition createUrl := createUrl Number_toString new_URL.
Definition apiRequest (r : Response) :=
  apiRequest JSON_stringify JSON_parse (fetch r).
Definition endpoint (r : Response) :=
  endpoint Number_toString new_URL JSON_stringify JSON_parse (fetch r).

Definition str (s : string) : jsval number := VString (lit s).
Definition num (z : Z) : jsval number := VNumber z.

(** A string that is one unpaired surrogate, U+D800. *)
Definition lone_surrogate : jsval number := VString [55296%N].

Definition url (s : string) : URL :=
  {| input := lit s; base := lit "https://api.everhour.com" |}.

End Sample.

(* ================================================================= *)
(** ** Vocabulary of the statements *)

(** Characters of an encoded text: unescaped ones, [%] and hexadecimal digits. *)
Definition encoded_char (c : char16) : bool := uriUnescaped c || (c =? PERCENT)%N.

Definition encoded_text (s : jsstring) : Prop :=
  Forall (fun c => encoded_char c = true) s.

Definition scan_after (prev : option char16) (s : jsstring) : list jsstring :=
  scan (match prev with
        | Some p => if (p =? LBRACE)%N then Some [] else None
        | None => None
        end) s.

Definition last_char (s : jsstring) : option char16 := char_before s (List.length s).

Definition finish (A : list jsstring) : option (list jsstring) :=
  match A with
  | [] => None
  | _ => Some A
  end.

(** The first hole named [k] becomes the text [r]. *)
Fixpoint fill_hole (k r : jsstring) (segs : list segment) : list segment :=
  match segs with
  | [] => []
  | Lit t :: segs' => Lit t :: fill_hole k r segs'
  | Hole n :: segs' =>
    if str_eqb k n then Lit r :: segs' else Hole n :: fill_hole k r segs'
  end.


Section Vocabulary.

Variable number : Type.
Variable Number_toString : number -> jsstring.

(** The entry supplies a string or a number. *)
Definition supplies (p : object number) (n : jsstring) : bool :=
  match get_own p n with
  | Some (VString _) | Some (VNumber _) => true
  | _ => false
  end.

(** [encodeURIComponent] returns on this value. *)
Definition encodable (v : jsval number) : Prop :=
  exists r, encodeURIComponent Number_toString v = Return r.

Definition encoded (v : jsval number) : jsstring :=
  match encodeURIComponent Number_toString v with
  | Return r => r
  | Throw _ => []
  end.

(** Entries whose name has no [}] and whose value can be encoded. *)
Definition tame_entry (e : jsstring * jsval number) : Prop :=
  has_char RBRACE (fst e) = false /\ encodable (snd e).

Definition tame (o : object number) : Prop := Forall tame_entry o.

Fixpoint remove_own (k : jsstring) (o : object number) : object number :=
  match o with
  | [] => []
  | (k', v) :: o' => if str_eqb k k' then o' else (k', v) :: remove_own k o'
  end.


Definition keys (o : object number) : list jsstring := map fst o.

(** [p'] is [p] with entries added, anywhere among its own: an added entry has
    a name that is none of [names] and has no [}], and a value that
    [encodeURIComponent] accepts. *)
Inductive with_extra_entries (names : list jsstring)
  : object number -> object number -> Prop :=
| extra_none : with_extra_entries names [] []
| extra_kept (e : jsstring * jsval number) (p p' : object number) :
    with_extra_entries names p p' ->
    with_extra_entries names (e :: p) (e :: p')
| extra_added (e : jsstring * jsval number) (p p' : object number) :
    mem (fst e) names = false -> tame_entry e ->
    with_extra_entries names p p' ->
    with_extra_entries names p (e :: p').

(** What the entries of [p], taken in order, make of the holes: each entry
    fills the first hole of its name that is still open. *)
Definition fill_all (p : object number) (segs : list segment) : list segment :=
  fold_left (fun acc e => fill_hole (fst e) (encoded (snd e)) acc) p segs.

(** The same, read along the template: a hole takes the value of its name
    and uses it up. *)
Fixpoint fill_first (p : object number) (segs : list segment) : list segment :=
  match segs with
  | [] => []
  | Lit t :: segs' => Lit t :: fill_first p segs'
  | Hole n :: segs' =>
    match get_own p n with
    | Some v => Lit (encoded v) :: fill_first (remove_own n p) segs'
    | None => Hole n :: fill_first p segs'
    end
  end.

(** Every hole replaced by the encoded value of its name. *)
Definition instantiate (p : object number) (segs : list segment) : jsstring :=
  flat_map (fun g =>
              match g with
              | Lit t => t
              | Hole n =>
                match get_own p n with
                | Some v => encoded v
                | None => render_segment (Hole n)
                end
              end) segs.

(** The pairs [createUrl] appends for a query object. *)
Definition defined_entries (q : object number) : URLSearchParams :=
  flat_map (fun e =>
              match snd e with
              | VUndefined => []
              | v => [(scalar_string (fst e), scalar_string (encoded v))]
              end) q.

End Vocabulary.

(* ================================================================= *)
(** ** The endpoint wrappers *)

(** Every wrapper is [const url = client.createUrl(path, {k1, ...}, {q1, ...});
    return await client.apiRequest(method, url, payload)], the two object
    literals and the payload being there or not.  A wrapper is kept as its
    name, the method, the path template, the names of the two literals in
    their order, and whether it passes a payload on. *)
Record wrapper : Type := W {
  wrapper_name : string;
  wrapper_method : method;
  wrapper_path : string;
  path_keys : list string;
  query_keys : list string;
  sends_payload : bool
}.

Definition wrappers : list wrapper :=
  [
    W "addAttachmentToExpense" POST "/expenses/{expenseId}/attachments"
      ["expenseId"] [] true;
    W "addTime" POST "/tasks/{taskId}/time"
      ["taskId"] [] true;
    W "clientsReport" GET "/dashboards/clients"
      [] ["date_gte"; "date_lte"; "projectId"; "clientId"; "memberId"] false;
    W "clockIn" POST "/users/{userId}/timecards/clock-in"
      ["userId"] [] true;
    W "clockOut" POST "/users/{userId}/timecards/clock-out"
      ["userId"] [] true;
    W "createAssignment" POST "/resource-planner/assignments"
      [] [] true;
    W "createAttachment" POST "/attachments"
      [] [] true;
    W "createCategory" POST "/expenses/categories"
      [] [] true;
    W "createClient" POST "/clients"
      [] [] true;
    W "createExpense" POST "/expenses"
      [] [] true;
    W "createInvoice" POST "/clients/{clientId}/invoices"
      ["clientId"] [] true;
    W "createProject" POST "/projects"
      [] [] true;
    W "createSection" POST "/projects/{projectId}/sections"
      ["projectId"] [] true;
    W "createTask" POST "/projects/{projectId}/tasks"
      ["projectId"] [] true;
    W "createWebhook" POST "/hooks"
      [] [] true;
    W "deleteAssignment" DELETE "/resource-planner/assignments/{assignmentId}"
      ["assignmentId"] [] false;
    W "deleteAttachment" DELETE "/attachments/{attachmentId}"
      ["attachmentId"] [] false;
    W "deleteCategory" DELETE "/expenses/categories/{categoryId}"
      ["categoryId"] [] true;
    W "deleteBudget" DELETE "/clients/{clientId}/budget"
      ["clientId"] [] false;
    W "deleteExpense" DELETE "/expenses/{expenseId}"
      ["expenseId"] [] false;
    W "deleteInvoice" DELETE "/invoices/{invoiceId}"
      ["invoiceId"] [] false;
    W "deleteProject" DELETE "/projects/{projectId}"
      ["projectId"] [] false;
    W "deleteSection" DELETE "/sections/{sectionId}"
      ["sectionId"] [] false;
    W "deleteTask" DELETE "/tasks/{taskId}"
      ["taskId"] [] false;
    W "deleteTaskEstimate" DELETE "/tasks/{taskId}/estimate"
      ["taskId"] [] false;
    W "deleteTimeRecord" DELETE "/tasks/{taskId}/time"
      ["taskId"] [] true;
    W "deleteTimecard" DELETE "/users/{userId}/timecards/{date}"
      ["userId"; "date"] [] false;
    W "deleteWebhook" DELETE "/hooks/{hookId}"
      ["hookId"] [] false;
    W "downloadAttachment" GET "/attachments/{attachmentToken}/download"
      ["attachmentToken"] [] false;
    W "estimatesReportDeprecated" GET "/team/estimate/export"
      [] ["dueFrom"; "dueTo"; "status"] false;
    W "exportInvoiceToXeroQBFB" POST "/invoices/{invoiceId}/export"
      ["invoiceId"] [] false;
    W "getAllAssignments" GET "/resource-planner/assignments"
      [] ["type"; "project"; "task"; "client"; "from"; "to"] false;
    W "getAllCategories" GET "/expenses/categories"
      [] [] false;
    W "getAllClients" GET "/clients"
      [] ["query"] false;
    W "getAllExpenses" GET "/expenses"
      [] [] false;
    W "getAllInvoices" GET "/invoices"
      [] [] false;
    W "getAllProjects" GET "/projects"
      [] ["limit"; "query"; "platform"] false;
    W "getAllTeamTimers" GET "/team/timers"
      [] [] false;
    W "getAllTimeRecords" GET "/team/time"
      [] ["from"; "to"; "limit"; "page"] false;
    W "getAllTimecards" GET "/timecards"
      [] ["from"; "to"] false;
    W "getAllUsers" GET "/team/users"
      [] [] false;
    W "getClient" GET "/clients/{clientId}"
      ["clientId"] [] false;
    W "getCurrentUser" GET "/users/me"
      [] [] false;
    W "getInvoice" GET "/invoices/{invoiceId}"
      ["invoiceId"] [] false;
    W "getProject" GET "/projects/{projectId}"
      ["projectId"] [] false;
    W "getProjectSections" GET "/projects/{projectId}/sections"
      ["projectId"] [] false;
    W "getProjectTasks" GET "/projects/{projectId}/tasks"
      ["projectId"] ["page"; "limit"; "excludeClosed"; "query"] false;
    W "getProjectTimeRecords" GET "/projects/{projectId}/time"
      ["projectId"] ["from"; "to"; "limit"; "page"] false;
    W "getRunningTimer" GET "/timers/current"
      [] [] false;
    W "getSection" GET "/sections/{sectionId}"
      ["sectionId"] [] false;
    W "getTask" GET "/tasks/{taskId}"
      [] [] false;
    W "getTaskTimeRecords" GET "/tasks/{taskId}/time"
      ["taskId"] ["from"; "to"; "limit"; "page"] false;
    W "getTimecard" GET "/users/{userId}/timecards/{date}"
      ["userId"; "date"] [] false;
    W "getUserTimeRecords" GET "/users/{userId}/time"
      ["userId"] ["from"; "to"; "limit"; "page"] false;
    W "getUserTimecards" GET "/users/{userId}/timecards"
      ["userId"] ["from"; "to"] false;
    W "getWebhook" GET "/hooks/{hookId}"
      ["hookId"] [] false;
    W "markInvoiceAsDraftSentPaid" POST "/invoices/{invoiceId}/{status}"
      ["invoiceId"; "status"] [] false;
    W "projectsReport" GET "/dashboards/projects"
      [] ["date_gte"; "date_lte"; "projectId"; "clientId"; "memberId"] false;
    W "refreshInvoiceLineItems" POST "/invoices/{invoiceId}/reset-time"
      ["invoiceId"] [] true;
    W "searchProjectTasks" GET "/projects/{projectId}/tasks/search"
      ["projectId"] ["query"; "limit"; "searchInClosed"] false;
    W "searchTasks" GET "/tasks/search"
      [] ["query"; "limit"; "searchInClosed"] false;
    W "startTimer" POST "/timers"
      [] [] true;
    W "stopTimer" DELETE "/timers/current"
      [] [] false;
    W "timeReportDeprecated" GET "/team/time/export"
      [] ["from"; "to"; "fields"] false;
    W "updateAssignment" PUT "/resource-planner/assignments/{assignmentId}"
      ["assignmentId"] [] true;
    W "updateCategory" PUT "/expenses/categories/{categoryId}"
      ["categoryId"] [] true;
    W "updateClient" PUT "/clients/{clientId}"
      ["clientId"] [] true;
    W "updateBudget" PUT "/clients/{clientId}/budget"
      ["clientId"] [] true;
    W "updateExpense" PUT "/expenses/{expenseId}"
      ["expenseId"] [] true;
    W "updateInvoice" PUT "/invoices/{invoiceId}"
      ["invoiceId"] [] true;
    W "updateProject" PUT "/projects/{projectId}"
      ["projectId"] [] true;
    W "updateProjectBillingBudget" PUT "/projects/{projectId}/billing"
      ["projectId"] ["example"] true;
    W "updateSection" PUT "/sections/{sectionId}"
      ["sectionId"] [] true;
    W "updateTask" PUT "/tasks/{taskId}"
      ["taskId"] [] true;
    W "updateTaskEstimate" PUT "/tasks/{taskId}/estimate"
      ["taskId"] [] true;
    W "updateTimeRecord" PUT "/tasks/{taskId}/time"
      ["taskId"] [] true;
    W "updateTimecard" PUT "/users/{userId}/timecards/{date}"
      ["userId"; "date"] [] true;
    W "updateWebhook" PUT "/hooks/{hookId}"
      ["hookId"] [] true;
    W "usersReport" GET "/dashboards/users"
      [] ["date_gte"; "date_lte"; "projectId"; "clientId"; "memberId"] false
  ]%string.

(** The template a wrapper is the only one to leave without its parameter. *)
Definition supplies_its_path (w : wrapper) : bool :=
  negb (String.eqb (wrapper_name w) "getTask").

(** Reading a template as text and holes; [None] when a [{] is not followed by
    a non-empty name free of braces and a [}]. *)
Definition emit_text (acc : jsstring) : list segment :=
  match acc with
  | [] => []
  | _ => [Lit (rev acc)]
  end.

Fixpoint parse_from (text : jsstring) (name : option jsstring) (s : jsstring)
  : option (list segment) :=
  match s with
  | [] =>
    match name with
    | None => Some (emit_text text)
    | Some _ => None
    end
  | c :: s' =>
    match name with
    | None =>
      if (c =? LBRACE)%N then
        match parse_from [] (Some []) s' with
        | Some segs => Some (emit_text text ++ segs)
        | None => None
        end
      else parse_from (c :: text) None s'
    | Some acc =>
      if (c =? RBRACE)%N then
        match acc with
        | [] => None
        | _ =>
          match parse_from [] None s' with
          | Some segs => Some (Hole (rev acc) :: segs)
          | None => None
          end
        end
      else if (c =? LBRACE)%N then None
      else parse_from text (Some (c :: acc)) s'
    end
  end.

Definition parse_template (s : jsstring) : option (list segment) :=
  parse_from [] None s.

(** The text of a template outside its holes. *)
Definition literal_text (segs : list segment) : jsstring :=
  flat_map (fun g => match g with Lit t => t | Hole _ => [] end) segs.

Definition count_char (c : char16) (s : jsstring) : nat :=
  List.length (filter (N.eqb c) s).

(** Text made of letters, digits and [* - . _]: what neither escaping touches. *)
Definition plain_text (s : jsstring) : bool := forallb form_unescaped s.

(** [k1=v1&k2=v2...] *)
Fixpoint join_pairs (ps : list (jsstring * jsstring)) : jsstring :=
  match ps with
  | [] => []
  | [(k, v)] => k ++ lit "=" ++ v
  | (k, v) :: rest => k ++ lit "=" ++ v ++ lit "&" ++ join_pairs rest
  end.

(** Reading the message of a failed request back: the status and the text. *)
Fixpoint take_digits (s : jsstring) : jsstring * jsstring :=
  match s with
  | [] => ([], [])
  | c :: s' =>
    if is_digit c then let (d, rest) := take_digits s' in (c :: d, rest)
    else ([], s)
  end.

Definition number_of_digits (d : jsstring) : option N :=
  match NilZero.uint_of_string (string_of_list_ascii (map ascii_of_N d)) with
  | Some u => Some (N.of_uint u)
  | None => None
  end.

Definition parse_failure_message (msg : jsstring) : option (N * jsstring) :=
  match strip_prefix (lit "Status: ") msg with
  | None => None
  | Some rest =>
    let (d, rest') := take_digits rest in
    match number_of_digits d, strip_prefix (lit ", Text: '") rest' with
    | Some st, Some quoted =>
      match rev quoted with
      | q :: text_rev => if (q =? 39)%N then Some (st, rev text_rev) else None
      | [] => None
      end
    | _, _ => None
    end
  end.

Section Wrappers.

Variable number : Type.
Variable Number_toString : number -> jsstring.
Variable URL : Type.
Variable new_URL : jsstring -> jsstring -> completion URL.
Variable payload : Type.
Variable JSON_stringify : payload -> completion jsstring.
Variable json : Type.
Variable JSON_parse : jsstring -> completion json.
Variable fetch : URL -> RequestInit -> completion Response.

(** The object literal [{k1, k2, ...}] over the positional arguments: an
    argument the caller leaves out is undefined. *)
Fixpoint object_literal (names : list string) (args : list (jsval number))
  : object number :=
  match names with
  | [] => []
  | k :: names' =>
    (lit k, hd VUndefined args) :: object_literal names' (tl args)
  end.

(** A call of a wrapper with the arguments of its path literal, those of its
    query literal and its payload. *)
Definition call_wrapper (w : wrapper) (client : EverhourApiClient)
           (path_args query_args : list (jsval number)) (body : option payload)
  : (completion json * list (URL * RequestInit)) * EverhourApiClient :=
  endpoint Number_toString new_URL JSON_stringify JSON_parse fetch
           client (wrapper_method w) (lit (wrapper_path w))
           (object_literal (path_keys w) path_args)
           (object_literal (query_keys w) query_args)
           (if sends_payload w then body else None).

(** [getTask(client)]: [createUrl] is given the template alone. *)
Definition getTask (client : EverhourApiClient)
  : (completion json * list (URL * RequestInit)) * EverhourApiClient :=
  endpoint Number_toString new_URL JSON_stringify JSON_parse fetch
           client GET (lit "/tasks/{taskId}") [] [] None.

(** An argument of the declared type, a string or a number, that
    [encodeURIComponent] accepts. *)
Definition typed_argument (v : jsval number) : Prop :=
  match v with
  | VString _ | VNumber _ => encodable Number_toString v
  | _ => False
  end.

(** An optional argument: left out, or one [encodeURIComponent] accepts. *)
Definition optional_argument (v : jsval number) : Prop :=
  v = VUndefined \/ encodable Number_toString v.

End Wrappers.

(** Two rows of the table, to run. *)
Definition deleteTimecard_wrapper : wrapper :=
  W "deleteTimecard" DELETE "/users/{userId}/timecards/{date}"
    ["userId"; "date"]%string [] false.

Definition getAllUsers_wrapper : wrapper :=
  W "getAllUsers" GET "/team/users" [] [] false.

(** What the table is checked for: the template reads as text and holes, no
    name twice, and the names are those of the path literal, in its order. *)
Fixpoint names_eqb (a b : list jsstring) : bool :=
  match a, b with
  | [], [] => true
  | x :: a', y :: b' => str_eqb x y && names_eqb a' b'
  | _, _ => false
  end.

Fixpoint nodupb (l : list jsstring) : bool :=
  match l with
  | [] => true
  | x :: l' => negb (mem x l') && nodupb l'
  end.

Definition wrapper_checked (w : wrapper) : bool :=
  match parse_template (lit (wrapper_path w)) with
  | Some segs =>
    nodupb (hole_names segs) && names_eqb (hole_names segs) (map lit (path_keys w))
  | None => false
  end.

Section QueryVocabulary.

Variable number : Type.
Variable Number_toString : number -> jsstring.

Definition is_undefined (v : jsval number) : bool :=
  match v with
  | VUndefined => true
  | _ => false
  end.

(** The text of a value, when converting it returns. *)
Definition value_text (v : jsval number) : jsstring :=
  match ToString Number_toString v with
  | Return s => s
  | Throw _ => []
  end.

(** The entries that are not undefined, as name and text. *)
Definition plain_pairs (q : object number) : list (jsstring * jsstring) :=
  map (fun e => (fst e, value_text (snd e)))
      (filter (fun e => negb (is_undefined (snd e))) q).

(** A query entry whose name and value no escaping touches. *)
Definition plain_entry (e : jsstring * jsval number) : Prop :=
  plain_text (fst e) = true
  /\ exists s, ToString Number_toString (snd e) = Return s /\ plain_text s = true.

End QueryVocabulary.

(* ================================================================= *)
(** * Properties *)

Unset Implicit Arguments.

#[local] Arguments N.eqb : simpl never.
#[local] Arguments N.leb : simpl never.
#[local] Arguments N.ltb : simpl never.

(** ** Strings *)

Lemma str_eqb_eq (a b : jsstring) : str_eqb a b = true <-> a = b.
Proof.
  revert b; induction a as [|x a IH]; intros [|y b]; simpl; split;
    try congruence; try reflexivity.
  - intros H. apply andb_true_iff in H as [Hx Hab].
    apply N.eqb_eq in Hx. apply IH in Hab. congruence.
  - intros H. inversion H; subst. rewrite N.eqb_refl. simpl. now apply IH.
Qed.

Lemma str_eqb_refl (a : jsstring) : str_eqb a a = true.
Proof. now apply str_eqb_eq. Qed.

Lemma str_eqb_neq (a b : jsstring) : str_eqb a b = false <-> a <> b.
Proof.
  split.
  - intros H E. apply str_eqb_eq in E. congruence.
  - intros H. destruct (str_eqb a b) eqn:E; [|reflexivity].
    apply str_eqb_eq in E. contradiction.
Qed.

Lemma str_eqb_sym (a b : jsstring) : str_eqb a b = str_eqb b a.
Proof.
  destruct (str_eqb a b) eqn:E.
  - apply str_eqb_eq in E. subst. symmetry. apply str_eqb_refl.
  - symmetry. apply str_eqb_neq. apply str_eqb_neq in E. congruence.
Qed.

Lemma mem_In (k : jsstring) (l : list jsstring) : mem k l = true <-> In k l.
Proof.
  induction l as [|x l IH]; simpl.
  - split; [discriminate | tauto].
  - rewrite orb_true_iff, IH, str_eqb_eq. intuition congruence.
Qed.

Lemma has_char_app (c : char16) (a b : jsstring) :
  has_char c (a ++ b) = has_char c a || has_char c b.
Proof. unfold has_char. apply existsb_app. Qed.

Lemma has_char_false_iff (c : char16) (s : jsstring) :
  has_char c s = false <-> ~ In c s.
Proof.
  unfold has_char. split.
  - intros H Hin.
    assert (existsb (N.eqb c) s = true)
      by (apply existsb_exists; exists c; split; [assumption | apply N.eqb_refl]).
    congruence.
  - intros H. destruct (existsb (N.eqb c) s) eqn:E; [|reflexivity].
    apply existsb_exists in E as (x & Hx & Hc). apply N.eqb_eq in Hc. subst.
    contradiction.
Qed.

(** ** What [encodeURIComponent] can produce *)

Lemma hex_digit_encoded (d : N) : encoded_char (hex_digit d) = true.
Proof.
  unfold hex_digit.
  destruct (nth_in_or_default (N.to_nat d) hex_digits 48%N) as [H | H].
  - revert H. generalize (nth (N.to_nat d) hex_digits 48%N). intros c H.
    cbv in H.
    repeat (destruct H as [H | H]; [subst c; reflexivity |]).
    contradiction.
  - rewrite H. reflexivity.
Qed.

Lemma percent_byte_encoded (b : N) : encoded_text (percent_byte b).
Proof.
  unfold percent_byte. repeat constructor; apply hex_digit_encoded.
Qed.

Lemma percent_utf8_encoded (cp : N) : encoded_text (percent_utf8 cp).
Proof.
  unfold percent_utf8, encoded_text.
  induction (utf8 cp) as [|b l IH].
  - constructor.
  - change (flat_map percent_byte (b :: l))
      with (percent_byte b ++ flat_map percent_byte l).
    apply Forall_app. split; [apply percent_byte_encoded | exact IH].
Qed.

Lemma Encode_encoded_aux (n : nat) :
  forall s r, List.length s <= n -> Encode uriUnescaped s = Return r -> encoded_text r.
Proof.
  induction n as [|n IH]; intros [|c s] r Hlen H; simpl in *;
    try (inversion H; subst; constructor); try lia.
  destruct (uriUnescaped c) eqn:Hc.
  - destruct (Encode uriUnescaped s) as [r'|] eqn:E; simpl in H; [|discriminate].
    inversion H; subst. constructor.
    + unfold encoded_char. now rewrite Hc.
    + apply (IH s); [lia | assumption].
  - destruct (is_trail c); [discriminate|].
    destruct (is_lead c).
    + destruct s as [|d s]; [discriminate|].
      destruct (is_trail d); [|discriminate].
      destruct (Encode uriUnescaped s) as [r'|] eqn:E; simpl in H; [|discriminate].
      inversion H; subst. apply Forall_app. split.
      * apply percent_utf8_encoded.
      * apply (IH s); [simpl in Hlen; lia | assumption].
    + destruct (Encode uriUnescaped s) as [r'|] eqn:E; simpl in H; [|discriminate].
      inversion H; subst. apply Forall_app. split.
      * apply percent_utf8_encoded.
      * apply (IH s); [lia | assumption].
Qed.

Lemma Encode_encoded (s r : jsstring) :
  Encode uriUnescaped s = Return r -> encoded_text r.
Proof. apply (Encode_encoded_aux (List.length s)). lia. Qed.

Lemma encoded_text_lacks (c : char16) (r : jsstring) :
  encoded_char c = false -> encoded_text r -> has_char c r = false.
Proof.
  intros Hc Hr. apply has_char_false_iff. intros Hin.
  unfold encoded_text in Hr. rewrite Forall_forall in Hr.
  specialize (Hr c Hin). simpl in Hr. congruence.
Qed.

(** ** The global match and the one-pass scan agree *)

Lemma run_to_close_spec (s run rest : jsstring) :
  run_to_close s = (run, rest) ->
  s = run ++ rest /\ has_char RBRACE run = false
  /\ (rest = [] \/ exists rest', rest = RBRACE :: rest').
Proof.
  revert run rest. induction s as [|c s IH]; simpl; intros run rest H.
  - inversion H; subst. auto.
  - destruct (c =? RBRACE)%N eqn:Hc.
    + inversion H; subst. apply N.eqb_eq in Hc. subst c.
      repeat split; eauto.
    + destruct (run_to_close s) as [run' rest'] eqn:E.
      inversion H; subst.
      destruct (IH run' rest eq_refl) as (Hs & Hrun & Hrest).
      repeat split; try assumption.
      * simpl. congruence.
      * simpl. rewrite N.eqb_sym, Hc. exact Hrun.
Qed.

Lemma scan_no_close (s : jsstring) :
  has_char RBRACE s = false -> forall opened, scan opened s = [].
Proof.
  induction s as [|c s IH]; simpl; intros H opened; [reflexivity|].
  apply orb_false_iff in H as [Hc Hs].
  destruct opened as [acc|].
  - rewrite N.eqb_sym, Hc. now apply IH.
  - now apply IH.
Qed.

Lemma scan_open_run (run rest : jsstring) :
  has_char RBRACE run = false ->
  forall acc,
    scan (Some acc) (run ++ RBRACE :: rest)
    = match rev acc ++ run with
      | [] => scan None rest
      | _ :: _ => (rev acc ++ run) :: scan None rest
      end.
Proof.
  induction run as [|c run IH]; simpl; intros H acc.
  - rewrite app_nil_r.
    destruct acc as [|a acc]; [reflexivity|].
    simpl. destruct (rev acc ++ [a]) eqn:E; [|reflexivity].
    now destruct (rev acc).
  - apply orb_false_iff in H as [Hc Hrun].
    rewrite N.eqb_sym, Hc, (IH Hrun). simpl.
    now rewrite <- app_assoc.
Qed.

Lemma match_here_Some (prev : option char16) (s m : jsstring) :
  match_here prev s = Some m ->
  prev = Some LBRACE /\ m <> [] /\ has_char RBRACE m = false
  /\ exists rest, s = m ++ RBRACE :: rest.
Proof.
  unfold match_here. destruct prev as [p|]; [|discriminate].
  destruct (p =? LBRACE)%N eqn:Hp; [|discriminate].
  apply N.eqb_eq in Hp. subst p.
  destruct (run_to_close s) as [run rest] eqn:E.
  destruct run as [|c run]; [discriminate|].
  destruct rest as [|d rest]; [discriminate|].
  intros H. inversion H; subst.
  destruct (run_to_close_spec _ _ _ E) as (Hs & Hrun & [Hnil | (rest' & Hrest)]);
    [discriminate|].
  inversion Hrest; subst. repeat split; try assumption; [discriminate | eauto].
Qed.

Lemma last_char_close_next (m rest : jsstring) :
  scan_after (last_char m) (RBRACE :: rest) = scan None rest.
Proof.
  unfold scan_after. destruct (last_char m) as [p|]; [|reflexivity].
  destruct (p =? LBRACE)%N; reflexivity.
Qed.

Lemma scan_after_step (prev : option char16) (c : char16) (s : jsstring) :
  match_here prev (c :: s) = None ->
  scan_after prev (c :: s) = scan_after (Some c) s.
Proof.
  unfold match_here, scan_after. destruct prev as [p|]; [|reflexivity].
  destruct (p =? LBRACE)%N; [|reflexivity].
  simpl. destruct (c =? RBRACE)%N eqn:Hc.
  - intros _. apply N.eqb_eq in Hc. subst c. reflexivity.
  - destruct (run_to_close s) as [run rest] eqn:E.
    destruct rest as [|d rest]; [|discriminate]. intros _.
    destruct (run_to_close_spec _ _ _ E) as (Hs & Hrun & _).
    rewrite app_nil_r in Hs. subst run.
    now rewrite !scan_no_close.
Qed.

Lemma search_from_scan (s : jsstring) :
  forall prev i,
    match search_from prev s i with
    | None => scan_after prev s = []
    | Some (start, m) =>
      exists pre rest,
        s = pre ++ m ++ rest /\ start = i + List.length pre /\ m <> []
        /\ scan_after prev s = m :: scan_after (last_char m) rest
    end.
Proof.
  induction s as [|c s IH]; intros prev i.
  - simpl. destruct (match_here prev []) as [m|] eqn:E.
    + apply match_here_Some in E as (_ & _ & _ & rest & H).
      now destruct m.
    + unfold scan_after. reflexivity.
  - simpl. destruct (match_here prev (c :: s)) as [m|] eqn:E.
    + destruct (match_here_Some _ _ _ E) as (Hp & Hm & Hrun & rest & Hs).
      exists [], (RBRACE :: rest). simpl. repeat split; try assumption; [lia|].
      rewrite last_char_close_next, Hs, Hp. unfold scan_after. simpl.
      pose proof (scan_open_run m rest Hrun []) as Hr. simpl in Hr.
      destruct m; [contradiction | exact Hr].
    + rewrite (scan_after_step _ _ _ E).
      specialize (IH (Some c) (S i)).
      destruct (search_from (Some c) s (S i)) as [[start m]|]; [|exact IH].
      destruct IH as (pre & rest & Hs & Hstart & Hm & Hscan).
      exists (c :: pre), rest. simpl. repeat split; try assumption.
      * now rewrite Hs.
      * lia.
Qed.

Lemma skipn_length_app (A : Type) (a b : list A) :
  skipn (List.length a) (a ++ b) = b.
Proof. induction a; simpl; auto. Qed.

Lemma char_before_app (a b : jsstring) :
  char_before (a ++ b) (List.length a) = last_char a.
Proof.
  unfold last_char, char_before. destruct (List.length a) eqn:E; [reflexivity|].
  apply nth_error_app1. lia.
Qed.

Lemma last_char_app (a b : jsstring) : b <> [] -> last_char (a ++ b) = last_char b.
Proof.
  intros Hb. unfold last_char, char_before.
  rewrite length_app.
  destruct (List.length b) as [|n] eqn:E.
  - destruct b; [contradiction | discriminate].
  - replace (List.length a + S n) with (S (List.length a + n)) by lia.
    rewrite nth_error_app2 by lia. f_equal. lia.
Qed.

Lemma match_loop_scan (fuel : nat) :
  forall done todo A,
    List.length todo < fuel ->
    match_loop fuel {| lastIndex := List.length done |} (done ++ todo) A
    = (finish (A ++ scan_after (last_char done) todo), {| lastIndex := 0 |}).
Proof.
  induction fuel as [|fuel IH]; intros done todo A Hfuel; [lia|].
  simpl. unfold RegExp_exec. simpl lastIndex.
  replace (List.length (done ++ todo) <? List.length done) with false
    by (symmetry; apply Nat.ltb_ge; rewrite length_app; lia).
  rewrite skipn_length_app, char_before_app.
  pose proof (search_from_scan todo (last_char done) (List.length done)) as H.
  destruct (search_from (last_char done) todo (List.length done)) as [[start m]|].
  - destruct H as (pre & rest & Htodo & Hstart & Hm & Hscan).
    destruct m as [|c m]; [contradiction|].
    rewrite Hscan.
    replace (start + List.length (c :: m))
      with (List.length (done ++ pre ++ c :: m))
      by (rewrite !length_app; lia).
    replace (done ++ todo) with ((done ++ pre ++ c :: m) ++ rest)
      by (rewrite Htodo, <- !app_assoc; reflexivity).
    rewrite IH.
    + rewrite app_assoc, last_char_app by discriminate.
      now rewrite <- app_assoc.
    + rewrite Htodo, !length_app in Hfuel. simpl in Hfuel. lia.
  - rewrite H, app_nil_r. destruct A; reflexivity.
Qed.

(** [s.match(re)] returns the names the scan finds, or null when there are
    none, and leaves [lastIndex] at 0 whatever it was. *)
Lemma String_match_spec (s : jsstring) (re : RegExp) :
  String_match s re = (finish (placeholders s), {| lastIndex := 0 |}).
Proof.
  unfold String_match.
  apply (match_loop_scan (S (List.length s)) [] s []). lia.
Qed.

(** ** Well-formed templates *)

Lemma render_cons (g : segment) (segs : list segment) :
  render (g :: segs) = render_segment g ++ render segs.
Proof. reflexivity. Qed.

Lemma render_app (a b : list segment) : render (a ++ b) = render a ++ render b.
Proof. unfold render. apply flat_map_app. Qed.

Lemma scan_skip_text (text rest : jsstring) :
  has_char LBRACE text = false -> scan None (text ++ rest) = scan None rest.
Proof.
  induction text as [|c text IH]; simpl; intros H; [reflexivity|].
  apply orb_false_iff in H as [Hc Ht].
  rewrite N.eqb_sym, Hc. now apply IH.
Qed.

Lemma wf_hole (n : jsstring) :
  wf_segment (Hole n) = true ->
  n <> [] /\ has_char LBRACE n = false /\ has_char RBRACE n = false.
Proof.
  simpl. destruct n as [|c n]; [discriminate|].
  intros H. apply andb_true_iff in H as [H1 H2].
  apply negb_true_iff in H1, H2. repeat split; try assumption. discriminate.
Qed.

Lemma scan_hole (n rest : jsstring) :
  wf_segment (Hole n) = true ->
  scan None (render_segment (Hole n) ++ rest) = n :: scan None rest.
Proof.
  intros H. destruct (wf_hole n H) as (Hn & _ & Hclose).
  simpl. rewrite <- app_assoc. simpl.
  pose proof (scan_open_run n rest Hclose []) as Hr. simpl in Hr.
  destruct n; [contradiction | exact Hr].
Qed.

(** On a well-formed template the expression extracts the names of the holes,
    in order. *)
Lemma placeholders_render (segs : list segment) :
  wf_template segs = true -> placeholders (render segs) = hole_names segs.
Proof.
  unfold placeholders. induction segs as [|g segs IH]; [reflexivity|].
  simpl wf_template. intros H. apply andb_true_iff in H as [Hg Hsegs].
  rewrite render_cons. destruct g as [text|n].
  - simpl in Hg. apply negb_true_iff in Hg.
    simpl render_segment. rewrite (scan_skip_text text _ Hg). now apply IH.
  - rewrite (scan_hole n _ Hg). simpl. f_equal. now apply IH.
Qed.

(** ** Replacing a token in a well-formed template *)

Lemma GetSubstitution_plain (matched preceding following r : jsstring) :
  has_char DOLLAR r = false ->
  GetSubstitution matched preceding following r = r.
Proof.
  induction r as [|c r IH]; simpl; intros H; [reflexivity|].
  apply orb_false_iff in H as [Hc Hr].
  rewrite N.eqb_sym, Hc. f_equal. now apply IH.
Qed.

Lemma split_first_skip (p : char16) (pat w rest : jsstring) :
  has_char p w = false ->
  split_first (p :: pat) (w ++ rest)
  = match split_first (p :: pat) rest with
    | Some (before, after) => Some (w ++ before, after)
    | None => None
    end.
Proof.
  induction w as [|c w IH]; intros H.
  - simpl app. destruct (split_first (p :: pat) rest) as [[b a]|]; reflexivity.
  - simpl in H. apply orb_false_iff in H as [Hc Hw].
    simpl. rewrite Hc. rewrite (IH Hw).
    destruct (split_first (p :: pat) rest) as [[b a]|]; reflexivity.
Qed.

Lemma strip_prefix_names (k n rest : jsstring) :
  has_char RBRACE k = false -> has_char RBRACE n = false ->
  strip_prefix (k ++ [RBRACE]) (n ++ RBRACE :: rest)
  = if str_eqb k n then Some rest else None.
Proof.
  revert n. induction k as [|x k IH]; intros [|c n] Hk Hn; simpl in *.
  - reflexivity.
  - apply orb_false_iff in Hn as [Hc _]. now rewrite Hc.
  - apply orb_false_iff in Hk as [Hx _]. now rewrite N.eqb_sym, Hx.
  - apply orb_false_iff in Hk as [_ Hk]. apply orb_false_iff in Hn as [_ Hn].
    destruct (x =? c)%N; [now apply IH | reflexivity].
Qed.

Lemma token_eq (k : jsstring) : token k = LBRACE :: k ++ [RBRACE].
Proof. reflexivity. Qed.

Lemma split_first_hole (k n rest : jsstring) :
  has_char RBRACE k = false -> wf_segment (Hole n) = true ->
  split_first (token k) (render_segment (Hole n) ++ rest)
  = if str_eqb k n then Some ([], rest)
    else match split_first (token k) rest with
         | Some (before, after) => Some (render_segment (Hole n) ++ before, after)
         | None => None
         end.
Proof.
  intros Hk Hn. destruct (wf_hole n Hn) as (_ & Hopen & Hclose).
  rewrite token_eq. simpl render_segment.
  replace ((LBRACE :: n ++ [RBRACE]) ++ rest) with (LBRACE :: n ++ RBRACE :: rest)
    by (simpl; now rewrite <- app_assoc).
  cbn [split_first strip_prefix]. rewrite N.eqb_refl.
  rewrite (strip_prefix_names k n rest Hk Hclose).
  destruct (str_eqb k n); [reflexivity|].
  replace (n ++ RBRACE :: rest) with ((n ++ [RBRACE]) ++ rest)
    by (now rewrite <- app_assoc).
  rewrite split_first_skip.
  - destruct (split_first (LBRACE :: k ++ [RBRACE]) rest) as [[b a]|];
      [|reflexivity].
    simpl. now rewrite <- app_assoc.
  - rewrite has_char_app, Hopen. reflexivity.
Qed.

Lemma split_first_render (k r : jsstring) (segs : list segment) :
  has_char RBRACE k = false -> wf_template segs = true ->
  match split_first (token k) (render segs) with
  | None => fill_hole k r segs = segs
  | Some (before, after) =>
    render (fill_hole k r segs) = before ++ r ++ after
  end.
Proof.
  intros Hk. induction segs as [|g segs IH]; [reflexivity|].
  simpl wf_template. intros H. apply andb_true_iff in H as [Hg Hsegs].
  specialize (IH Hsegs). rewrite render_cons. destruct g as [t|n].
  - simpl in Hg. apply negb_true_iff in Hg. simpl render_segment.
    rewrite token_eq, (split_first_skip LBRACE _ t _ Hg), <- token_eq.
    destruct (split_first (token k) (render segs)) as [[b a]|]; simpl.
    + rewrite IH. now rewrite <- app_assoc.
    + now rewrite IH.
  - rewrite (split_first_hole k n _ Hk Hg). simpl fill_hole.
    destruct (str_eqb k n); [reflexivity|].
    destruct (split_first (token k) (render segs)) as [[b a]|].
    + rewrite render_cons, IH. now rewrite <- app_assoc.
    + now rewrite IH.
Qed.

Lemma String_replace_render (k r : jsstring) (segs : list segment) :
  has_char RBRACE k = false -> has_char DOLLAR r = false ->
  wf_template segs = true ->
  String_replace (render segs) (token k) r = render (fill_hole k r segs).
Proof.
  intros Hk Hr Hwf. unfold String_replace.
  pose proof (split_first_render k r segs Hk Hwf) as H.
  destruct (split_first (token k) (render segs)) as [[b a]|].
  - now rewrite GetSubstitution_plain.
  - now rewrite H.
Qed.

Lemma wf_template_cons (g : segment) (segs : list segment) :
  wf_template (g :: segs) = wf_segment g && wf_template segs.
Proof. reflexivity. Qed.

Lemma fill_hole_wf (k r : jsstring) (segs : list segment) :
  has_char LBRACE r = false -> wf_template segs = true ->
  wf_template (fill_hole k r segs) = true.
Proof.
  intros Hr. induction segs as [|g segs IH]; [reflexivity|].
  rewrite wf_template_cons. intros H. apply andb_true_iff in H as [Hg Hsegs].
  destruct g as [t|n]; cbn [fill_hole].
  - rewrite wf_template_cons, Hg. now apply IH.
  - destruct (str_eqb k n); rewrite wf_template_cons.
    + simpl wf_segment. rewrite Hr. exact Hsegs.
    + rewrite Hg. now apply IH.
Qed.


(** ** Parameter objects and the two loops over them *)


(** ** Replacing any text that starts as a token does

    Whatever the name between the braces, the text [String.prototype.replace]
    takes out of a well-formed template starts at the [{] of a hole and ends
    at a [}]; what is left on either side is a well-formed template again. *)

Lemma strip_prefix_spec (pat : jsstring) :
  forall s rest, strip_prefix pat s = Some rest -> s = pat ++ rest.
Proof.
  induction pat as [|c pat IH]; intros s rest H; simpl in H.
  - now inversion H.
  - destruct s as [|d s]; [discriminate|].
    destruct (c =? d)%N eqn:E; [|discriminate].
    apply N.eqb_eq in E. subst d. simpl. f_equal. now apply IH.
Qed.

Lemma split_first_spec (pat : jsstring) :
  forall s before after,
    split_first pat s = Some (before, after) -> s = before ++ pat ++ after.
Proof.
  intros s. induction s as [|c s IH]; intros before after H.
  - simpl in H. destruct (strip_prefix pat []) as [rest|] eqn:E; [|discriminate].
    inversion H; subst. simpl. now apply strip_prefix_spec.
  - cbn [split_first] in H.
    destruct (strip_prefix pat (c :: s)) as [rest|] eqn:E.
    + inversion H; subst. simpl app at 1. now apply strip_prefix_spec.
    + destruct (split_first pat s) as [[b a]|] eqn:E'; [|discriminate].
      inversion H; subst. simpl. f_equal. now apply IH.
Qed.

Lemma app_cons_split (A : Type) (c : A) (b y : list A) :
  forall a x,
    a ++ b = x ++ c :: y ->
    (exists z, a = x ++ c :: z /\ y = z ++ b)
    \/ (exists z, x = a ++ z /\ b = z ++ c :: y).
Proof.
  induction a as [|h a IH]; intros x H.
  - right. exists x. split; [reflexivity | exact H].
  - destruct x as [|h' x]; simpl in H; inversion H; subst.
    + left. exists a. split; reflexivity.
    + destruct (IH x H2) as [(z & -> & ->) | (z & -> & ->)].
      * left. exists z. split; reflexivity.
      * right. exists z. split; reflexivity.
Qed.

Lemma last_occurrence (c : char16) (a : jsstring) :
  has_char c a = false ->
  forall x z, a ++ [c] = x ++ c :: z -> x = a /\ z = [].
Proof.
  induction a as [|h a IH]; intros Ha x z H.
  - destruct x as [|h' x]; simpl in H.
    + inversion H. split; reflexivity.
    + inversion H. destruct x; discriminate.
  - simpl in Ha. apply orb_false_iff in Ha as [Hh Ha].
    destruct x as [|h' x]; simpl in H; inversion H; subst.
    + rewrite N.eqb_refl in Hh. discriminate.
    + destruct (IH Ha x z H2) as [-> ->]. split; reflexivity.
Qed.

Lemma hole_names_app (a b : list segment) :
  hole_names (a ++ b) = hole_names a ++ hole_names b.
Proof.
  induction a as [|[t|n] a IH]; simpl; [reflexivity | exact IH | now rewrite IH].
Qed.

Lemma render_after_close (segs : list segment) :
  wf_template segs = true ->
  forall x y,
    render segs = x ++ RBRACE :: y ->
    exists b, y = render b /\ wf_template b = true
              /\ incl (hole_names b) (hole_names segs).
Proof.
  induction segs as [|g segs IH]; intros Hwf x y H.
  - destruct x; discriminate.
  - rewrite wf_template_cons in Hwf. apply andb_true_iff in Hwf as [Hg Hsegs].
    rewrite render_cons in H.
    destruct (app_cons_split _ RBRACE (render segs) y _ x H)
      as [(z & Hz & ->) | (z & -> & Hz)].
    + destruct g as [t|n].
      * exists (Lit z :: segs). split; [now rewrite render_cons|]. split.
        -- rewrite wf_template_cons, Hsegs. simpl in *. subst t.
           apply negb_true_iff in Hg. rewrite has_char_app in Hg.
           apply orb_false_iff in Hg as [_ Hg]. simpl in Hg.
           now rewrite Hg.
        -- simpl. apply incl_refl.
      * destruct (wf_hole n Hg) as (_ & Hopen & Hclose).
        simpl render_segment in Hz.
        assert (Hn : has_char RBRACE (LBRACE :: n) = false)
          by (simpl; now rewrite Hclose).
        destruct (last_occurrence RBRACE (LBRACE :: n) Hn x z Hz) as [_ ->].
        exists segs. split; [reflexivity|]. split; [exact Hsegs|].
        simpl. now apply incl_tl, incl_refl.
    + destruct (IH Hsegs z y Hz) as (b & -> & Hb & Hincl).
      exists b. split; [reflexivity|]. split; [exact Hb|].
      destruct g; simpl; [exact Hincl | now apply incl_tl].
Qed.

Lemma render_before_open (segs : list segment) :
  wf_template segs = true ->
  forall x y,
    render segs = x ++ LBRACE :: y ->
    exists a, x = render a /\ wf_template a = true
              /\ incl (hole_names a) (hole_names segs).
Proof.
  induction segs as [|g segs IH]; intros Hwf x y H.
  - destruct x; discriminate.
  - rewrite wf_template_cons in Hwf. apply andb_true_iff in Hwf as [Hg Hsegs].
    rewrite render_cons in H.
    destruct (app_cons_split _ LBRACE (render segs) y _ x H)
      as [(z & Hz & ->) | (z & -> & Hz)].
    + destruct g as [t|n].
      * exfalso. simpl in *. subst t. apply negb_true_iff in Hg.
        rewrite has_char_app in Hg. apply orb_false_iff in Hg as [_ Hg].
        simpl in Hg. discriminate.
      * destruct (wf_hole n Hg) as (_ & Hopen & Hclose).
        simpl render_segment in Hz. destruct x as [|c x].
        -- exists []. split; [reflexivity|]. split; [reflexivity|].
           intros m [].
        -- exfalso. simpl in Hz. inversion Hz as [[Hc Hrest]].
           assert (Hin : In LBRACE (n ++ [RBRACE]))
             by (rewrite Hrest; apply in_or_app; right; now left).
           apply in_app_or in Hin as [Hin | [Hin | []]].
           ++ now apply (proj1 (has_char_false_iff LBRACE n) Hopen).
           ++ discriminate.
    + destruct (IH Hsegs z y Hz) as (a & -> & Ha & Hincl).
      exists (g :: a). split; [now rewrite render_cons|]. split.
      * now rewrite wf_template_cons, Hg.
      * destruct g; simpl; [exact Hincl|].
        intros m [<- | Hm]; [now left | right; now apply Hincl].
Qed.

Lemma String_replace_wf (k r : jsstring) (segs : list segment) :
  wf_template segs = true ->
  has_char LBRACE r = false -> has_char DOLLAR r = false ->
  exists segs',
    String_replace (render segs) (token k) r = render segs'
    /\ wf_template segs' = true
    /\ incl (hole_names segs') (hole_names segs).
Proof.
  intros Hwf Hopen Hdollar. unfold String_replace.
  destruct (split_first (token k) (render segs)) as [[before after]|] eqn:E.
  - apply split_first_spec in E. rewrite token_eq in E.
    destruct (render_before_open segs Hwf before ((k ++ [RBRACE]) ++ after))
      as (a & -> & Ha & Hia); [exact E|].
    destruct (render_after_close segs Hwf (render a ++ LBRACE :: k) after)
      as (b & -> & Hb & Hib).
    { rewrite E. simpl. rewrite <- !app_assoc. reflexivity. }
    exists (a ++ Lit r :: b). split; [|split].
    + rewrite GetSubstitution_plain by exact Hdollar.
      now rewrite render_app, render_cons.
    + unfold wf_template in *. rewrite forallb_app. simpl.
      now rewrite Ha, Hb, Hopen.
    + rewrite hole_names_app. simpl. now apply incl_app.
  - exists segs. split; [reflexivity|]. split; [exact Hwf | apply incl_refl].
Qed.

Section EntryProperties.

Variable number : Type.
Variable Number_toString : number -> jsstring.

Local Abbreviation jsval := (jsval number).
Local Abbreviation object := (object number).
Local Abbreviation encodeURIComponent := (encodeURIComponent Number_toString).
Local Abbreviation encoded := (encoded Number_toString).
Local Abbreviation tame := (tame Number_toString).
Local Abbreviation fill_all := (fill_all Number_toString).
Local Abbreviation fill_first := (fill_first Number_toString).
Local Abbreviation instantiate := (instantiate Number_toString).
Local Abbreviation defined_entries := (defined_entries Number_toString).
Local Abbreviation substitute_entry := (substitute_entry Number_toString).
Local Abbreviation append_entry := (append_entry Number_toString).

Lemma encodeURIComponent_encoded (v : jsval) (r : jsstring) :
  encodeURIComponent v = Return r -> encoded_text r.
Proof.
  unfold encodeURIComponent.
  destruct (ToString Number_toString v) as [s|]; simpl; [|discriminate].
  apply Encode_encoded.
Qed.

Lemma encoded_is_encoded (v : jsval) : encoded_text (encoded v).
Proof.
  unfold encoded.
  destruct (encodeURIComponent v) as [r|] eqn:E.
  - exact (encodeURIComponent_encoded v r E).
  - constructor.
Qed.

Lemma encoded_lacks (c : char16) (v : jsval) :
  encoded_char c = false -> has_char c (encoded v) = false.
Proof. intros H. apply encoded_text_lacks; [exact H | apply encoded_is_encoded]. Qed.

(** The validation loop. *)
Lemma accepted_type_supplies (p : object) (n : jsstring) :
  accepted_type (typeof_get p n) = supplies p n.
Proof.
  unfold typeof_get, supplies. destruct (get_own p n) as [v|].
  - destruct v as [| |b|x|s| |z|[|] str]; reflexivity.
  - destruct (mem n (Object_prototype_functions)); [reflexivity|].
    destruct (str_eqb n (lit "__proto__")); reflexivity.
Qed.

Lemma check_required_ok (p : object) (names : list jsstring) :
  (forall n, In n names -> supplies p n = true) ->
  check_required p names = Return tt.
Proof.
  induction names as [|n names IH]; intros H; [reflexivity|].
  simpl. rewrite accepted_type_supplies, (H n (or_introl eq_refl)). simpl.
  apply IH. intros m Hm. apply H. now right.
Qed.

Lemma check_required_fails (p : object) (names : list jsstring) :
  (exists n, In n names /\ supplies p n = false) ->
  exists n, In n names /\ supplies p n = false
            /\ check_required p names
               = Throw (RequiredError n (required_message n (typeof_get p n))).
Proof.
  induction names as [|n names IH]; intros (m & Hm & Hbad); [contradiction|].
  simpl. rewrite accepted_type_supplies.
  destruct (supplies p n) eqn:Hn; simpl.
  - destruct Hm as [-> | Hm]; [congruence|].
    destruct IH as (n' & Hin & Hb & Hc); [eauto|].
    exists n'. auto.
  - exists n. auto.
Qed.

(** The substitution loop on a well-formed template. *)
Lemma forEach_substitute (p : object) :
  forall segs,
    tame p -> wf_template segs = true ->
    forEach substitute_entry p (render segs) = Return (render (fill_all p segs)).
Proof.
  induction p as [|[k v] p IH]; intros segs Hp Hwf; [reflexivity|].
  inversion Hp as [|? ? [Hk [r Hr]] Hp']; subst. simpl in Hk, Hr.
  cbn [forEach].
  replace (substitute_entry (render segs) (k, v))
    with (Return (A := jsstring) (String_replace (render segs) (token k) r))
    by (cbn [substitute_entry]; now rewrite Hr).
  cbn [bind].
  pose proof (encodeURIComponent_encoded v r Hr) as Henc.
  rewrite String_replace_render;
    [| exact Hk | now apply encoded_text_lacks | exact Hwf].
  rewrite IH; [| exact Hp' | apply fill_hole_wf;
                             [now apply encoded_text_lacks | exact Hwf]].
  unfold fill_all. cbn [fold_left fst snd].
  replace (encoded v) with r by (unfold encoded; now rewrite Hr).
  reflexivity.
Qed.

Lemma fill_all_lit (p : object) :
  forall t segs, fill_all p (Lit t :: segs) = Lit t :: fill_all p segs.
Proof.
  unfold fill_all.
  induction p as [|[k v] p IH]; intros t segs; [reflexivity|].
  simpl. apply IH.
Qed.

Lemma fill_all_hole (p : object) :
  forall n segs,
    fill_all p (Hole n :: segs)
    = match get_own p n with
      | Some v => Lit (encoded v) :: fill_all (remove_own n p) segs
      | None => Hole n :: fill_all p segs
      end.
Proof.
  induction p as [|[k v] p IH]; intros n segs; [reflexivity|].
  unfold fill_all in *. simpl fold_left. simpl get_own. simpl remove_own.
  rewrite (str_eqb_sym n k).
  destruct (str_eqb k n) eqn:E.
  - apply str_eqb_eq in E. subst k. apply (fill_all_lit p).
  - rewrite IH. destruct (get_own p n); reflexivity.
Qed.

Lemma fill_all_first (segs : list segment) :
  forall p, fill_all p segs = fill_first p segs.
Proof.
  induction segs as [|[t|n] segs IH]; intros p.
  - unfold fill_all. induction p; simpl; auto.
  - rewrite fill_all_lit. simpl. now rewrite IH.
  - rewrite fill_all_hole. simpl.
    destruct (get_own p n); now rewrite IH.
Qed.

(** Entries and their removal. *)
Lemma get_own_remove_other (n m : jsstring) (p : object) :
  str_eqb n m = false -> get_own (remove_own n p) m = get_own p m.
Proof.
  intros Hnm. induction p as [|[k v] p IH]; [reflexivity|].
  simpl. destruct (str_eqb n k) eqn:Enk.
  - apply str_eqb_eq in Enk. subst k.
    now rewrite (str_eqb_sym m n), Hnm.
  - simpl. now rewrite IH.
Qed.












Lemma instantiate_ext (segs : list segment) (p p' : object) :
  (forall n, In n (hole_names segs) -> get_own p n = get_own p' n) ->
  instantiate p segs = instantiate p' segs.
Proof.
  unfold instantiate.
  induction segs as [|[t|n] segs IH]; intros H; simpl.
  - reflexivity.
  - f_equal. now apply IH.
  - rewrite (H n) by (simpl; auto). f_equal.
    apply IH. intros m Hm. apply H. simpl. auto.
Qed.

Lemma render_fill_first_NoDup (segs : list segment) :
  forall p : object,
    NoDup (hole_names segs) -> render (fill_first p segs) = instantiate p segs.
Proof.
  induction segs as [|[t|n] segs IH]; intros p H.
  - reflexivity.
  - simpl fill_first. rewrite render_cons, (IH p H). reflexivity.
  - simpl in H. inversion H as [|? ? Hn Hrest]; subst.
    simpl fill_first. unfold instantiate. simpl flat_map.
    destruct (get_own p n) eqn:E.
    + rewrite render_cons, (IH _ Hrest). simpl render_segment. f_equal.
      apply instantiate_ext. intros m Hm.
      apply get_own_remove_other. apply str_eqb_neq. intros ->. contradiction.
    + rewrite render_cons, (IH _ Hrest). reflexivity.
Qed.

Lemma supplies_get_own (p : object) (n : jsstring) :
  supplies p n = true -> exists v, get_own p n = Some v.
Proof.
  unfold supplies. destruct (get_own p n) as [v|]; [eauto | discriminate].
Qed.

Lemma instantiate_closed (segs : list segment) (p : object) :
  wf_template segs = true ->
  (forall n, In n (hole_names segs) -> supplies p n = true) ->
  placeholders (instantiate p segs) = [].
Proof.
  unfold placeholders, instantiate.
  induction segs as [|g segs IH]; [reflexivity|].
  rewrite wf_template_cons. intros Hwf Hall.
  apply andb_true_iff in Hwf as [Hg Hsegs].
  simpl flat_map. rewrite scan_skip_text.
  - apply IH; [exact Hsegs|]. intros n Hn. apply Hall.
    destruct g; simpl; auto.
  - destruct g as [t|n].
    + simpl in Hg. now apply negb_true_iff in Hg.
    + destruct (supplies_get_own p n) as [v Hv]; [apply Hall; simpl; auto|].
      rewrite Hv. now apply encoded_lacks.
Qed.

Lemma instantiate_no_holes (segs : list segment) (p : object) :
  hole_names segs = [] -> instantiate p segs = render segs.
Proof.
  unfold instantiate, render.
  induction segs as [|[t|n] segs IH]; intros H; simpl in *.
  - reflexivity.
  - f_equal. now apply IH.
  - discriminate.
Qed.

Lemma fill_hole_absent (k r : jsstring) (segs : list segment) :
  ~ In k (hole_names segs) -> fill_hole k r segs = segs.
Proof.
  induction segs as [|[t|n] segs IH]; simpl; intros H.
  - reflexivity.
  - now rewrite IH.
  - destruct (str_eqb k n) eqn:E.
    + apply str_eqb_eq in E. subst n. exfalso. apply H. now left.
    + rewrite IH; [reflexivity|]. intros Hin. apply H. now right.
Qed.

Lemma wf_hole_names (segs : list segment) (n : jsstring) :
  wf_template segs = true -> In n (hole_names segs) ->
  has_char RBRACE n = false.
Proof.
  induction segs as [|g segs IH]; [contradiction|].
  rewrite wf_template_cons. intros H. apply andb_true_iff in H as [Hg Hsegs].
  destruct g as [t|m]; simpl.
  - now apply IH.
  - intros [<- | Hin]; [|now apply IH].
    now destruct (wf_hole m Hg) as (_ & _ & H).
Qed.

(** The query loop: entries whose value is undefined are passed over, the
    others are appended in order. *)
Lemma defined_entries_cons (k : jsstring) (v : jsval) (q : object) :
  defined_entries ((k, v) :: q)
  = match v with
    | VUndefined => []
    | _ => [(scalar_string k, scalar_string (encoded v))]
    end ++ defined_entries q.
Proof. destruct v; reflexivity. Qed.

Lemma forEach_append (q : object) :
  forall acc,
    Forall (fun e => snd e = VUndefined \/ encodable Number_toString (snd e)) q ->
    forEach append_entry q acc = Return (acc ++ defined_entries q).
Proof.
  induction q as [|[k v] q IH]; intros acc H.
  - simpl. now rewrite app_nil_r.
  - inversion H as [|? ? Hv Hq]; subst. simpl in Hv.
    rewrite defined_entries_cons. cbn [forEach].
    destruct Hv as [-> | [r Hr]].
    + cbn [append_entry bind]. now rewrite IH.
    + assert (Henc : encoded v = r) by (unfold encoded; now rewrite Hr).
      destruct v; cbn [append_entry];
        try (rewrite Hr, Henc; cbn [bind]; rewrite IH by exact Hq;
             unfold params_append; now rewrite <- app_assoc).
      cbn [bind]. now rewrite IH.
Qed.

(** ** Entries added to [pathParams]

    Whatever the entries before it made of the path, an added entry finds no
    token of its name in it and leaves it as it is. *)

Lemma substitute_keeps_wf (N : list jsstring) (e : jsstring * jsval)
      (segs : list segment) (path' : jsstring) :
  wf_template segs = true -> incl (hole_names segs) N ->
  substitute_entry (render segs) e = Return path' ->
  exists segs',
    path' = render segs' /\ wf_template segs' = true /\ incl (hole_names segs') N.
Proof.
  intros Hwf HN H. destruct e as [k v]. cbn [substitute_entry] in H.
  destruct (encodeURIComponent v) as [r|err] eqn:Hr; cbn [bind] in H;
    [|discriminate].
  inversion H; subst path'.
  pose proof (encodeURIComponent_encoded v r Hr) as Henc.
  destruct (String_replace_wf k r segs Hwf) as (segs' & Heq & Hwf' & Hincl).
  - now apply encoded_text_lacks.
  - now apply encoded_text_lacks.
  - exists segs'. split; [exact Heq|]. split; [exact Hwf'|].
    intros n Hn. apply HN. now apply Hincl.
Qed.

Lemma substitute_extra_entry (N : list jsstring) (e : jsstring * jsval)
      (segs : list segment) :
  wf_template segs = true -> incl (hole_names segs) N ->
  mem (fst e) N = false -> tame_entry Number_toString e ->
  substitute_entry (render segs) e = Return (render segs).
Proof.
  intros Hwf HN Hout [Hclose [r Hr]]. destruct e as [k v].
  cbn [fst snd] in *. cbn [substitute_entry]. rewrite Hr. cbn [bind].
  pose proof (encodeURIComponent_encoded v r Hr) as Henc.
  rewrite String_replace_render;
    [| exact Hclose | now apply encoded_text_lacks | exact Hwf].
  rewrite fill_hole_absent; [reflexivity|].
  intros Hin. apply HN in Hin. apply mem_In in Hin. congruence.
Qed.

Lemma forEach_substitute_extra (N : list jsstring) (p p' : object) :
  with_extra_entries Number_toString N p p' ->
  forall segs,
    wf_template segs = true -> incl (hole_names segs) N ->
    forEach substitute_entry p' (render segs)
    = forEach substitute_entry p (render segs).
Proof.
  induction 1 as [|e p p' Hrel IH|e p p' Hout He Hrel IH]; intros segs Hwf HN.
  - reflexivity.
  - cbn [forEach].
    destruct (substitute_entry (render segs) e) as [path'|err] eqn:E;
      cbn [bind]; [|reflexivity].
    destruct (substitute_keeps_wf N e segs path' Hwf HN E)
      as (segs' & -> & Hwf' & HN').
    now apply IH.
  - cbn [forEach].
    rewrite (substitute_extra_entry N e segs Hwf HN Hout He). cbn [bind].
    now apply IH.
Qed.

Lemma get_own_extra (N : list jsstring) (p p' : object) (n : jsstring) :
  with_extra_entries Number_toString N p p' -> mem n N = true ->
  get_own p' n = get_own p n.
Proof.
  intros Hrel Hn.
  induction Hrel as [|[k v] p p' Hrel IH|[k v] p p' Hout He Hrel IH].
  - reflexivity.
  - simpl. now rewrite IH.
  - simpl. rewrite IH. destruct (str_eqb n k) eqn:E; [|reflexivity].
    apply str_eqb_eq in E. subst k. simpl in Hout. congruence.
Qed.

Lemma check_required_extra (N : list jsstring) (p p' : object)
      (names : list jsstring) :
  with_extra_entries Number_toString N p p' ->
  (forall n, In n names -> mem n N = true) ->
  check_required p' names = check_required p names.
Proof.
  intros Hrel. induction names as [|n names IH]; intros H; [reflexivity|].
  simpl. unfold typeof_get.
  rewrite (get_own_extra N p p' n Hrel) by (apply H; simpl; auto).
  rewrite IH by (intros m Hm; apply H; simpl; auto). reflexivity.
Qed.

End EntryProperties.

(** ** [createUrl] *)

Section ClientProperties.

Variable number : Type.
Variable Number_toString : number -> jsstring.
Variable URL : Type.
Variable new_URL : jsstring -> jsstring -> completion URL.
Variable payload : Type.
Variable JSON_stringify : payload -> completion jsstring.
Variable json : Type.
Variable JSON_parse : jsstring -> completion json.
Variable fetch : URL -> RequestInit -> completion Response.

Local Abbreviation jsval := (jsval number).
Local Abbreviation object := (object number).
Local Abbreviation encodeURIComponent := (encodeURIComponent Number_toString).
Local Abbreviation encoded := (encoded Number_toString).
Local Abbreviation tame := (tame Number_toString).
Local Abbreviation fill_all := (fill_all Number_toString).
Local Abbreviation fill_first := (fill_first Number_toString).
Local Abbreviation instantiate := (instantiate Number_toString).
Local Abbreviation defined_entries := (defined_entries Number_toString).
Local Abbreviation substitute_entry := (substitute_entry Number_toString).
Local Abbreviation append_entry := (append_entry Number_toString).
Local Abbreviation createUrl := (createUrl Number_toString new_URL).
Local Abbreviation apiRequest := (apiRequest JSON_stringify JSON_parse fetch).
Local Abbreviation endpoint :=
  (endpoint Number_toString new_URL JSON_stringify JSON_parse fetch).

(** [createUrl] with the match replaced by what it computes. *)
Lemma createUrl_unfold (this : EverhourApiClient) (path : jsstring)
      (p q : object) :
  createUrl this path p q
  = ( _ <- check_required p (placeholders path) ;;
      path1 <- forEach substitute_entry p path ;;
      params <- forEach append_entry q [] ;;
      new_URL (with_query path1 params) (basePath (props this)),
      with_extractParams this {| lastIndex := 0 |} ).
Proof.
  unfold createUrl. rewrite String_match_spec.
  destruct (placeholders path); reflexivity.
Qed.

(** What [createUrl] returns for a well-formed template whose names are all
    supplied, when no entry is out of the ordinary. *)
Lemma createUrl_wf (this : EverhourApiClient) (segs : list segment)
      (p q : object) :
  wf_template segs = true -> tame p ->
  (forall n, In n (hole_names segs) -> supplies p n = true) ->
  fst (createUrl this (render segs) p q)
  = (params <- forEach append_entry q [] ;;
     new_URL (with_query (render (fill_first p segs)) params)
             (basePath (props this))).
Proof.
  intros Hwf Hp Hall. rewrite createUrl_unfold. simpl fst.
  rewrite placeholders_render by exact Hwf.
  rewrite check_required_ok by exact Hall. simpl bind.
  rewrite forEach_substitute by assumption. simpl bind.
  now rewrite fill_all_first.
Qed.

(** C1.  When a name the expression extracts from the template is absent from
    [pathParams], or is there with a value that is neither a string nor a
    number (a boolean, say), [createUrl] throws a RequiredError that carries
    the name and the message "Required parameter NAME was undefined or had
    the wrong type: TYPE.", where TYPE is what [typeof] gives for the value
    found: that of the entry when there is one ("boolean" for a boolean),
    "undefined" for a name that the object neither owns nor inherits.  This
    holds whatever the other entries and the query are, so nothing is
    substituted first, and an endpoint built on it gives no call to the
    transport. *)
Theorem C1_missing_parameter_is_required_error
        (this : EverhourApiClient) (path : jsstring) (p q : object)
        (n : jsstring) :
  In n (placeholders path) -> supplies p n = false ->
  exists n',
    In n' (placeholders path) /\ supplies p n' = false
    /\ fst (String_match path (extractParams (props this)))
       = Some (placeholders path)
    /\ fst (createUrl this path p q)
       = Throw (RequiredError n'
                  (lit "Required parameter " ++ n'
                   ++ lit " was undefined or had the wrong type: "
                   ++ typeof_get p n' ++ lit "."))
    /\ (forall v, get_own p n' = Some v -> typeof_get p n' = typeof v)
    /\ (forall b, get_own p n' = Some (VBoolean b) -> typeof_get p n' = lit "boolean")
    /\ (get_own p n' = None -> mem n' Object_prototype_functions = false ->
        str_eqb n' (lit "__proto__") = false -> typeof_get p n' = lit "undefined")
    /\ forall m body,
        fst (endpoint this m path p q body)
        = (Throw (RequiredError n'
                    (lit "Required parameter " ++ n'
                     ++ lit " was undefined or had the wrong type: "
                     ++ typeof_get p n' ++ lit ".")), []).
Proof.
  intros Hin Hbad.
  destruct (check_required_fails number p (placeholders path)) as (n' & Hn' & Hb & Hc);
    [eauto|].
  exists n'.
  split; [assumption|]. split; [assumption|].
  split; [|split; [|split; [|split; [|split]]]].
  - rewrite String_match_spec. simpl.
    destruct (placeholders path); [contradiction | reflexivity].
  - rewrite createUrl_unfold. simpl. now rewrite Hc.
  - intros v Hv. unfold typeof_get. now rewrite Hv.
  - intros b Hv. unfold typeof_get. now rewrite Hv.
  - intros Hv Hf Hp. unfold typeof_get. now rewrite Hv, Hf, Hp.
  - intros m body. unfold endpoint. rewrite createUrl_unfold, Hc. reflexivity.
Qed.

(** C9.  [createUrl] is a function of its arguments: a second call with the
    same arguments gives the same outcome and leaves the client as the first
    call left it; the only slot a call writes is the [lastIndex] of the
    expression, which it leaves at 0 and whose earlier value has no effect on
    the outcome; a client as the constructor makes it is left as it was. *)
Theorem C9_createUrl_deterministic
        (this : EverhourApiClient) (path : jsstring) (p q : object) :
  fst (createUrl (snd (createUrl this path p q)) path p q)
  = fst (createUrl this path p q)
  /\ snd (createUrl (snd (createUrl this path p q)) path p q)
     = snd (createUrl this path p q)
  /\ snd (createUrl this path p q) = with_extractParams this {| lastIndex := 0 |}
  /\ (forall re,
         fst (createUrl (with_extractParams this re) path p q)
         = fst (createUrl this path p q))
  /\ (forall apiKey,
         (c <- new_EverhourApiClient apiKey ;;
          Return (snd (createUrl c path p q)))
         = new_EverhourApiClient apiKey).
Proof.
  rewrite !createUrl_unfold. simpl. repeat split.
  - intros re. rewrite !createUrl_unfold. reflexivity.
  - intros apiKey. unfold new_EverhourApiClient. simpl.
    rewrite createUrl_unfold. reflexivity.
Qed.

(** C5, as the code has it.  For every key, the empty one too, the constructor
    returns a client whose headers are exactly Content-Type: application/json,
    X-Api-Key: the key given, X-Accept-Version: 1.2, in that order; the
    header object is frozen, so every write to it throws, and [createUrl],
    [apiRequest] and the endpoints leave it as it is and send it as it is. *)
Theorem C5_headers_fixed_at_construction (apiKey : jsstring) :
  exists c,
    new_EverhourApiClient apiKey = Return c
    /\ fields (headers c)
       = [ (lit "Content-Type", lit "application/json");
           (lit "X-Api-Key", apiKey);
           (lit "X-Accept-Version", lit "1.2") ]
    /\ (forall k v, set_field (headers c) k v = Throw TypeError)
    /\ (forall path p q, headers (snd (createUrl c path p q)) = headers c)
    /\ (forall m path p q body,
           headers (snd (endpoint c m path p q body)) = headers c)
    /\ (forall m url body u o,
           In (u, o) (snd (apiRequest c m url body)) -> init_headers o = headers c).
Proof.
  eexists. split; [reflexivity|]. simpl. repeat split.
  - intros k v. unfold set_field. cbn [headers Object_freeze writable extensible].
    destruct (has_field k _); reflexivity.
  - intros path p q. rewrite createUrl_unfold. reflexivity.
  - intros m path p q body. unfold endpoint. rewrite createUrl_unfold.
    match goal with
    | |- context [match ?r with Return _ => _ | Throw _ => _ end] => destruct r
    end; reflexivity.
  - intros m url body u o. unfold apiRequest, request_options.
    destruct body as [b|]; simpl.
    + destruct (JSON_stringify b); simpl; [|contradiction].
      intros [H|[]]. inversion H; subst. reflexivity.
    + intros [H|[]]. inversion H; subst. reflexivity.
Qed.

(** C6.  What [apiRequest] gives the transport: one call, to the given URL,
    with the given method and the client's header object; with a payload,
    the body is what [JSON.stringify] returns for it; with no payload, no
    body is set.  A body is there exactly when a payload was given. *)
Theorem C6_request_options (this : EverhourApiClient) (m : method) (url : URL) :
  snd (apiRequest this m url None)
  = [ (url, {| init_method := m; init_headers := headers this;
               init_body := None |}) ]
  /\ (forall b s,
         JSON_stringify b = Return s ->
         snd (apiRequest this m url (Some b))
         = [ (url, {| init_method := m; init_headers := headers this;
                      init_body := Some s |}) ])
  /\ (forall body u o,
         In (u, o) (snd (apiRequest this m url body)) ->
         u = url /\ init_method o = m /\ init_headers o = headers this
         /\ (init_body o = None <-> body = None)).
Proof.
  unfold apiRequest, request_options. split; [reflexivity | split].
  - intros b s Hs. rewrite Hs. reflexivity.
  - intros [b|] u o; simpl.
    + destruct (JSON_stringify b); simpl; [|contradiction].
      intros [H|[]]. inversion H; subst. simpl.
      repeat split; try reflexivity; discriminate.
    + intros [H|[]]. inversion H; subst. simpl.
      repeat split; reflexivity.
Qed.

(** C7, as the code has it.  [apiRequest] does not consult the method when
    it composes the body: a GET call with no payload carries no body, and a
    GET call given a payload carries its JSON serialization, as a call with
    any other method does.  Only the overload signatures keep a payload away
    from GET. *)
Theorem C7_get_body_follows_payload (this : EverhourApiClient) (url : URL) :
  snd (apiRequest this GET url None)
  = [ (url, {| init_method := GET; init_headers := headers this;
               init_body := None |}) ]
  /\ (forall b s,
         JSON_stringify b = Return s ->
         snd (apiRequest this GET url (Some b))
         = [ (url, {| init_method := GET; init_headers := headers this;
                      init_body := Some s |}) ])
  /\ (forall m body,
         map (fun call => init_body (snd call)) (snd (apiRequest this GET url body))
         = map (fun call => init_body (snd call)) (snd (apiRequest this m url body))).
Proof.
  unfold apiRequest, request_options. split; [reflexivity | split].
  - intros b s Hs. rewrite Hs. reflexivity.
  - intros m [b|]; [|reflexivity].
    destruct (JSON_stringify b); reflexivity.
Qed.

(** C4, as the code has it.  When the transport answers with a response whose
    status is in [200, 300), the outcome of [apiRequest] is that of decoding
    the body as JSON: the decoded value, untouched, or the error of the
    decoding, thrown as it is.  For any other status it throws an Error whose
    message is "Status: <status>, Text: '<body text>'", the status in decimal
    and the text as received.  It returns a value exactly when the status is
    in the range and the decoding returns that value. *)
Theorem C4_status_decides_outcome
        (this : EverhourApiClient) (m : method) (url : URL)
        (body : option payload) (options : RequestInit) (response : Response) :
  request_options JSON_stringify this m body = Return options ->
  fetch url options = Return response ->
  ((200 <= status response < 300)%N ->
   fst (apiRequest this m url body) = JSON_parse (response_body response))
  /\ (~ (200 <= status response < 300)%N ->
      fst (apiRequest this m url body)
      = Throw (Error (lit "Status: " ++ decimal_N (status response)
                        ++ lit ", Text: '" ++ response_body response ++ lit "'")))
  /\ (forall v,
         fst (apiRequest this m url body) = Return v
         <-> (200 <= status response < 300)%N
             /\ JSON_parse (response_body response) = Return v).
Proof.
  intros Hopt Hfetch. unfold apiRequest. rewrite Hopt. simpl fst.
  rewrite Hfetch. simpl bind. unfold on_response.
  destruct ((200 <=? status response)%N && (status response <? 300)%N) eqn:E.
  - apply andb_true_iff in E as [E1 E2].
    apply N.leb_le in E1. apply N.ltb_lt in E2.
    split; [reflexivity | split].
    + intros H. exfalso. apply H. split; assumption.
    + intros v. split; [intros H; repeat split; assumption | intros [_ H]; exact H].
  - assert (Hout : ~ (200 <= status response < 300)%N).
    { intros [H1 H2]. apply N.leb_le in H1. apply N.ltb_lt in H2.
      rewrite H1, H2 in E. discriminate. }
    split; [intros H; contradiction | split].
    + intros _. reflexivity.
    + intros v. split; [discriminate | intros [H _]; contradiction].
Qed.

Lemma with_query_empty (path : jsstring) : with_query path [] = path.
Proof. reflexivity. Qed.

(** C3, as the code has it.  For a well-formed template (every [{] opens a
    non-empty name free of braces) whose names are distinct, a [pathParams]
    that supplies a string or a number under each name, whose names have no
    [}] and whose values [encodeURIComponent] accepts, and a query each of
    whose values is undefined or one that [encodeURIComponent] accepts,
    [createUrl] throws nothing of its own: its outcome is that of the URL
    constructor on the base address and the template with every hole replaced
    by the encoded value of its name, followed by the query entries that are
    not undefined.  The replaced text has no placeholder left, and a template
    with no hole is passed on as it is. *)
Theorem C3_placeholders_filled
        (this : EverhourApiClient) (segs : list segment) (p q : object) :
  wf_template segs = true -> NoDup (hole_names segs) -> tame p ->
  (forall n, In n (hole_names segs) -> supplies p n = true) ->
  Forall (fun e => snd e = VUndefined \/ encodable Number_toString (snd e)) q ->
  fst (createUrl this (render segs) p q)
  = new_URL (with_query (instantiate p segs) (defined_entries q))
            (basePath (props this))
  /\ placeholders (instantiate p segs) = []
  /\ (hole_names segs = [] -> instantiate p segs = render segs).
Proof.
  intros Hwf Hnd Hp Hall Hq. split; [|split].
  - rewrite createUrl_wf by assumption.
    rewrite (forEach_append number Number_toString q [] Hq). cbn [bind app].
    now rewrite render_fill_first_NoDup.
  - now apply instantiate_closed.
  - apply instantiate_no_holes.
Qed.

(** C8, as the code has it.  For a well-formed template, whatever the
    [pathParams] and the query are, entries added to [pathParams], anywhere
    among its own, whose names are none of the names of the template and have
    no [}], and whose values [encodeURIComponent] accepts, change nothing:
    [createUrl] gives the same outcome, a URL or an error, and the same client
    state with them as without them. *)
Theorem C8_extra_entries_ignored
        (this : EverhourApiClient) (segs : list segment) (p p' q : object) :
  wf_template segs = true ->
  with_extra_entries Number_toString (hole_names segs) p p' ->
  createUrl this (render segs) p' q = createUrl this (render segs) p q.
Proof.
  intros Hwf Hextra. rewrite !createUrl_unfold.
  rewrite placeholders_render by exact Hwf.
  rewrite (check_required_extra number Number_toString (hole_names segs) p p'
             (hole_names segs) Hextra)
    by (intros n Hn; now apply mem_In).
  rewrite (forEach_substitute_extra number Number_toString (hole_names segs) p p'
             Hextra segs Hwf (incl_refl _)).
  reflexivity.
Qed.


End ClientProperties.

(* ================================================================= *)
(** * Further properties *)

(** ** What the expression extracts *)

Lemma has_char_rev (c : char16) (s : jsstring) :
  has_char c (rev s) = has_char c s.
Proof.
  induction s as [|x s IH]; [reflexivity|].
  simpl rev. rewrite has_char_app, IH. simpl.
  rewrite orb_false_r. apply orb_comm.
Qed.

Lemma scan_names_are_tokens (s : jsstring) :
  (forall n, In n (scan None s) ->
             n <> [] /\ has_char RBRACE n = false
             /\ exists a b, s = a ++ token n ++ b)
  /\ (forall acc n,
         has_char RBRACE acc = false -> In n (scan (Some acc) s) ->
         n <> [] /\ has_char RBRACE n = false
         /\ ((exists run rest, s = run ++ RBRACE :: rest /\ n = rev acc ++ run)
             \/ exists a b, s = a ++ token n ++ b)).
Proof.
  induction s as [|c s [IHnone IHsome]]; [split; intros; contradiction|].
  split.
  - intros n Hn. simpl in Hn. destruct (c =? LBRACE)%N eqn:Ec.
    + apply N.eqb_eq in Ec. subst c.
      destruct (IHsome [] n eq_refl Hn) as (Hne & Hcl & [(run & rest & Hs & Hrun) | (a & b & Hs)]).
      * repeat split; try assumption. exists [], rest.
        simpl in Hrun. subst n. rewrite Hs, token_eq. simpl.
        now rewrite <- app_assoc.
      * repeat split; try assumption. exists (LBRACE :: a), b. now rewrite Hs.
    + destruct (IHnone n Hn) as (Hne & Hcl & a & b & Hs).
      repeat split; try assumption. exists (c :: a), b. now rewrite Hs.
  - intros acc n Hacc Hn. simpl in Hn. destruct (c =? RBRACE)%N eqn:Ec.
    + apply N.eqb_eq in Ec. subst c.
      assert (Hlater : In n (scan None s) ->
                       n <> [] /\ has_char RBRACE n = false
                       /\ ((exists run rest, RBRACE :: s = run ++ RBRACE :: rest
                                             /\ n = rev acc ++ run)
                           \/ exists a b, RBRACE :: s = a ++ token n ++ b)).
      { intros H. destruct (IHnone n H) as (Hne & Hcl & a & b & Hs).
        repeat split; try assumption. right. exists (RBRACE :: a), b. now rewrite Hs. }
      destruct acc as [|x acc]; [now apply Hlater|].
      destruct Hn as [Hn | Hn]; [|now apply Hlater].
      subst n. repeat split.
      * simpl. now destruct (rev acc).
      * now rewrite has_char_rev.
      * left. exists [], s. now rewrite app_nil_r.
    + assert (Hacc' : has_char RBRACE (c :: acc) = false).
      { simpl. now rewrite N.eqb_sym, Ec. }
      destruct (IHsome (c :: acc) n Hacc' Hn)
        as (Hne & Hcl & [(run & rest & Hs & Hrun) | (a & b & Hs)]).
      * repeat split; try assumption. left. exists (c :: run), rest.
        split; [now rewrite Hs|]. simpl in Hrun. now rewrite <- app_assoc in Hrun.
      * repeat split; try assumption. right. exists (c :: a), b. now rewrite Hs.
Qed.

(** X11.  Whatever the path, every name [path.match(extractParams)] returns is
    non-empty, has no [}], and stands in the path between [{] and [}]: the
    token the substitution loop looks for is there when validation passes. *)
Theorem extracted_names_are_tokens (path : jsstring) (re : RegExp) (n : jsstring) :
  (exists names, fst (String_match path re) = Some names /\ In n names) ->
  n <> [] /\ has_char RBRACE n = false /\ exists a b, path = a ++ token n ++ b.
Proof.
  rewrite String_match_spec. simpl.
  intros (names & Hnames & Hin).
  apply (proj1 (scan_names_are_tokens path)).
  unfold finish in Hnames. fold (placeholders path).
  destruct (placeholders path); [discriminate|].
  inversion Hnames; subst. exact Hin.
Qed.

(** ** Reading a template *)

Lemma render_emit_text (acc : jsstring) : render (emit_text acc) = rev acc.
Proof. destruct acc; [reflexivity|]. simpl. now rewrite app_nil_r. Qed.

Lemma wf_emit_text (acc : jsstring) :
  has_char LBRACE acc = false -> wf_template (emit_text acc) = true.
Proof.
  intros H. destruct acc as [|c acc]; [reflexivity|].
  cbn [emit_text]. rewrite wf_template_cons. cbn [wf_segment].
  now rewrite has_char_rev, H.
Qed.

Lemma wf_template_app (a b : list segment) :
  wf_template (a ++ b) = wf_template a && wf_template b.
Proof. unfold wf_template. apply forallb_app. Qed.

Lemma parse_from_sound (s : jsstring) :
  (forall text segs,
      has_char LBRACE text = false ->
      parse_from text None s = Some segs ->
      render segs = rev text ++ s /\ wf_template segs = true)
  /\ (forall text acc segs,
         has_char LBRACE acc = false -> has_char RBRACE acc = false ->
         parse_from text (Some acc) s = Some segs ->
         render segs = LBRACE :: rev acc ++ s /\ wf_template segs = true).
Proof.
  induction s as [|c s [IHtext IHname]]; split.
  - intros text segs Ht H. inversion H; subst.
    rewrite render_emit_text, app_nil_r. split; [reflexivity | now apply wf_emit_text].
  - intros text acc segs _ _ H. discriminate.
  - intros text segs Ht H. simpl in H. destruct (c =? LBRACE)%N eqn:Ec.
    + apply N.eqb_eq in Ec. subst c.
      destruct (parse_from [] (Some []) s) as [segs'|] eqn:E; [|discriminate].
      inversion H; subst.
      destruct (IHname [] [] segs' eq_refl eq_refl E) as [Hr Hw].
      rewrite render_app, render_emit_text, Hr, wf_template_app, Hw, wf_emit_text
        by exact Ht.
      split; reflexivity.
    + assert (Ht' : has_char LBRACE (c :: text) = false).
      { simpl. now rewrite N.eqb_sym, Ec. }
      destruct (IHtext (c :: text) segs Ht' H) as [Hr Hw].
      split; [|exact Hw]. rewrite Hr. simpl. now rewrite <- app_assoc.
  - intros text acc segs Hopen Hclose H. simpl in H.
    destruct (c =? RBRACE)%N eqn:Ec.
    + apply N.eqb_eq in Ec. subst c.
      destruct acc as [|x acc]; [discriminate|].
      destruct (parse_from [] None s) as [segs'|] eqn:E; [|discriminate].
      inversion H; subst.
      destruct (IHtext [] segs' eq_refl E) as [Hr Hw].
      rewrite render_cons, Hr, wf_template_cons, Hw. split.
      * simpl. now rewrite <- !app_assoc.
      * rewrite andb_true_r. cbn [wf_segment].
        change (rev acc ++ [x]) with (rev (x :: acc)).
        destruct (rev (x :: acc)) eqn:Erev.
        { simpl in Erev. now destruct (rev acc). }
        rewrite <- Erev. now rewrite !has_char_rev, Hopen, Hclose.
    + destruct (c =? LBRACE)%N eqn:Eo; [discriminate|].
      assert (Ho' : has_char LBRACE (c :: acc) = false).
      { simpl. now rewrite N.eqb_sym, Eo. }
      assert (Hc' : has_char RBRACE (c :: acc) = false).
      { simpl. now rewrite N.eqb_sym, Ec. }
      destruct (IHname text (c :: acc) segs Ho' Hc' H) as [Hr Hw].
      split; [|exact Hw]. rewrite Hr. simpl. now rewrite <- app_assoc.
Qed.

Lemma parse_template_sound (s : jsstring) (segs : list segment) :
  parse_template s = Some segs -> render segs = s /\ wf_template segs = true.
Proof. intros H. now apply (proj1 (parse_from_sound s) [] segs eq_refl). Qed.

Lemma names_eqb_eq (a b : list jsstring) : names_eqb a b = true -> a = b.
Proof.
  revert b. induction a as [|x a IH]; intros [|y b]; simpl; try discriminate.
  - reflexivity.
  - intros H. apply andb_true_iff in H as [H1 H2].
    apply str_eqb_eq in H1. apply IH in H2. congruence.
Qed.

Lemma nodupb_NoDup (l : list jsstring) : nodupb l = true -> NoDup l.
Proof.
  induction l as [|x l IH]; simpl; intros H; [constructor|].
  apply andb_true_iff in H as [H1 H2]. constructor; [|now apply IH].
  intros Hin. apply mem_In in Hin. rewrite Hin in H1. discriminate.
Qed.

(** Every wrapper but [getTask] names in its path literal the placeholders of
    its template, which is well-formed; no GET wrapper passes a payload. *)
Lemma wrappers_checked :
  forallb (fun w => implb (supplies_its_path w) (wrapper_checked w)) wrappers = true.
Proof. vm_compute. reflexivity. Qed.

Lemma wrappers_get_no_payload :
  forallb (fun w => match wrapper_method w with
                    | GET => negb (sends_payload w)
                    | _ => true
                    end) wrappers = true.
Proof. vm_compute. reflexivity. Qed.

(** ** Counting characters *)

Lemma count_char_app (c : char16) (a b : jsstring) :
  count_char c (a ++ b) = count_char c a + count_char c b.
Proof. unfold count_char. now rewrite filter_app, length_app. Qed.

Lemma count_char_lacks (c : char16) (s : jsstring) :
  has_char c s = false -> count_char c s = 0.
Proof.
  unfold count_char. induction s as [|x s IH]; simpl; intros H; [reflexivity|].
  apply orb_false_iff in H as [Hx Hs]. rewrite Hx. now apply IH.
Qed.

(** ** Plain text *)

Lemma form_unescaped_facts (c : char16) :
  form_unescaped c = true ->
  uriUnescaped c = true /\ is_trail c = false /\ is_lead c = false
  /\ (c <? 128)%N = true /\ (c =? 32)%N = false.
Proof.
  unfold form_unescaped, uriUnescaped, is_alnum, is_digit, is_upper, is_lower,
    is_trail, is_lead, has_char.
  intros H. apply orb_true_iff in H as [H | H].
  - rewrite H. simpl.
    repeat (apply orb_true_iff in H as [H | H]);
      apply andb_true_iff in H as [H1 H2];
      apply N.leb_le in H1; apply N.leb_le in H2;
      repeat split;
      try (apply andb_false_iff; left; apply N.leb_gt; lia);
      try (apply N.ltb_lt; lia); try (apply N.eqb_neq; lia).
  - simpl in H.
    repeat (apply orb_true_iff in H as [H | H]); try discriminate;
      apply N.eqb_eq in H; subst c; repeat split; reflexivity.
Qed.

Lemma Encode_plain (s : jsstring) :
  plain_text s = true -> Encode uriUnescaped s = Return s.
Proof.
  unfold plain_text. induction s as [|c s IH]; simpl; intros H; [reflexivity|].
  apply andb_true_iff in H as [Hc Hs].
  destruct (form_unescaped_facts c Hc) as (Hu & _).
  rewrite Hu, (IH Hs). reflexivity.
Qed.

Lemma scalar_values_plain (s : jsstring) :
  plain_text s = true -> scalar_values s = s.
Proof.
  unfold plain_text. induction s as [|c s IH]; simpl; intros H; [reflexivity|].
  apply andb_true_iff in H as [Hc Hs].
  destruct (form_unescaped_facts c Hc) as (_ & Ht & Hl & _).
  rewrite Ht, Hl, (IH Hs). reflexivity.
Qed.

Lemma flat_map_singletons (f : N -> list N) (l : list N) :
  (forall x, In x l -> f x = [x]) -> flat_map f l = l.
Proof.
  induction l as [|x l IH]; intros H; [reflexivity|].
  simpl. rewrite (H x (or_introl eq_refl)), IH; [reflexivity|].
  intros y Hy. apply H. now right.
Qed.

Lemma scalar_string_plain (s : jsstring) :
  plain_text s = true -> scalar_string s = s.
Proof.
  intros H. unfold scalar_string. rewrite (scalar_values_plain s H).
  apply flat_map_singletons. intros c Hc.
  unfold plain_text in H. rewrite forallb_forall in H.
  destruct (form_unescaped_facts c (H c Hc)) as (_ & _ & _ & Hlt & _).
  replace (c <? 65536)%N with true; [reflexivity|].
  symmetry. apply N.ltb_lt. apply N.ltb_lt in Hlt. lia.
Qed.

Lemma form_urlencode_plain (s : jsstring) :
  plain_text s = true -> form_urlencode s = s.
Proof.
  intros H. unfold form_urlencode. rewrite (scalar_values_plain s H).
  unfold plain_text in H. rewrite forallb_forall in H.
  rewrite (flat_map_singletons utf8 s).
  - apply flat_map_singletons. intros c Hc.
    destruct (form_unescaped_facts c (H c Hc)) as (_ & _ & _ & _ & Hsp).
    unfold form_byte. now rewrite Hsp, (H c Hc).
  - intros c Hc.
    destruct (form_unescaped_facts c (H c Hc)) as (_ & _ & _ & Hlt & _).
    unfold utf8. now rewrite Hlt.
Qed.

Lemma params_toString_join (ps : URLSearchParams) :
  params_toString ps
  = join_pairs (map (fun kv => (form_urlencode (fst kv), form_urlencode (snd kv))) ps).
Proof.
  induction ps as [|[k v] ps IH]; [reflexivity|].
  destruct ps as [|[k' v'] ps]; [reflexivity|].
  cbn [params_toString map join_pairs fst snd] in *. now rewrite IH.
Qed.

(** ** The message of a failed request *)

Lemma strip_prefix_app (a b : jsstring) : strip_prefix a (a ++ b) = Some b.
Proof.
  induction a as [|c a IH]; [reflexivity|].
  simpl. now rewrite N.eqb_refl.
Qed.

Lemma take_digits_app (d rest : jsstring) :
  forallb is_digit d = true ->
  match rest with [] => True | c :: _ => is_digit c = false end ->
  take_digits (d ++ rest) = (d, rest).
Proof.
  induction d as [|c d IH]; simpl; intros Hd Hrest.
  - destruct rest as [|c rest]; [reflexivity|]. simpl. now rewrite Hrest.
  - apply andb_true_iff in Hd as [Hc Hd]. now rewrite Hc, IH.
Qed.

Lemma lit_string_of_uint_digits (u : Decimal.uint) :
  forallb is_digit (lit (NilEmpty.string_of_uint u)) = true.
Proof. induction u; simpl; try reflexivity; exact IHu. Qed.

Lemma decimal_N_digits (n : N) : forallb is_digit (decimal_N n) = true.
Proof.
  unfold decimal_N, NilZero.string_of_uint.
  destruct (N.to_uint n); try reflexivity; apply lit_string_of_uint_digits.
Qed.

Lemma unlit_lit (s : string) :
  string_of_list_ascii (map ascii_of_N (lit s)) = s.
Proof.
  unfold lit. rewrite map_map.
  rewrite (map_ext _ (fun a => a)) by (intros a; apply ascii_N_embedding).
  rewrite map_id. apply string_of_list_ascii_of_string.
Qed.

Lemma number_of_digits_decimal (n : N) : number_of_digits (decimal_N n) = Some n.
Proof.
  unfold number_of_digits, decimal_N. rewrite unlit_lit.
  pose proof (DecimalN.Unsigned.of_to n) as Hn.
  destruct (N.to_uint n) as [|u|u|u|u|u|u|u|u|u|u] eqn:E;
    try (rewrite NilZero.usu by discriminate; now rewrite Hn).
  simpl in Hn. subst n. reflexivity.
Qed.

(** The message of a failed request can be read back. *)
Lemma failure_message_read_back (st : N) (text : jsstring) :
  parse_failure_message (failure_message st text) = Some (st, text).
Proof.
  unfold parse_failure_message, failure_message.
  rewrite strip_prefix_app.
  rewrite take_digits_app; [| apply decimal_N_digits | reflexivity].
  rewrite number_of_digits_decimal, strip_prefix_app.
  rewrite rev_app_distr. simpl. now rewrite rev_involutive.
Qed.

(** ** Parameter objects, again *)

Section FurtherEntryProperties.

Variable number : Type.
Variable Number_toString : number -> jsstring.

Local Abbreviation jsval := (jsval number).
Local Abbreviation object := (object number).
Local Abbreviation encodeURIComponent := (encodeURIComponent Number_toString).
Local Abbreviation encoded := (encoded Number_toString).
Local Abbreviation encodable := (encodable Number_toString).
Local Abbreviation tame := (tame Number_toString).
Local Abbreviation instantiate := (instantiate Number_toString).
Local Abbreviation defined_entries := (defined_entries Number_toString).
Local Abbreviation append_entry := (append_entry Number_toString).
Local Abbreviation typed_argument := (typed_argument Number_toString).
Local Abbreviation optional_argument := (optional_argument Number_toString).
Local Abbreviation value_text := (value_text Number_toString).
Local Abbreviation plain_pairs := (plain_pairs Number_toString).
Local Abbreviation plain_entry := (plain_entry Number_toString).

Lemma get_own_Some_In (p : object) (n : jsstring) (v : jsval) :
  get_own p n = Some v -> In (n, v) p.
Proof.
  induction p as [|[k x] p IH]; simpl; [discriminate|].
  destruct (str_eqb n k) eqn:E.
  - apply str_eqb_eq in E. subst k. intros H. inversion H; subst. now left.
  - intros H. right. now apply IH.
Qed.

Lemma get_own_In_Some (p : object) (n : jsstring) (v : jsval) :
  NoDup (keys p) -> In (n, v) p -> get_own p n = Some v.
Proof.
  induction p as [|[k x] p IH]; simpl; intros Hnd Hin; [contradiction|].
  inversion Hnd as [|? ? Hk Hp]; subst.
  destruct Hin as [Hin | Hin].
  - inversion Hin; subst. now rewrite str_eqb_refl.
  - destruct (str_eqb n k) eqn:E.
    + apply str_eqb_eq in E. subst k. exfalso. apply Hk.
      change n with (fst (n, v)). now apply in_map.
    + now apply IH.
Qed.

Lemma get_own_keys (p : object) (n : jsstring) :
  In n (keys p) -> exists v, get_own p n = Some v.
Proof.
  induction p as [|[k x] p IH]; simpl; intros H; [contradiction|].
  destruct (str_eqb n k) eqn:E; [eauto|].
  destruct H as [H | H]; [|now apply IH].
  subst k. now rewrite str_eqb_refl in E.
Qed.

Lemma get_own_permutation (p p' : object) (n : jsstring) :
  NoDup (keys p) -> Permutation p p' -> get_own p n = get_own p' n.
Proof.
  intros Hnd Hperm.
  assert (Hnd' : NoDup (keys p')).
  { unfold keys. apply (Permutation_NoDup (l := map fst p)); [|exact Hnd].
    now apply Permutation_map. }
  destruct (get_own p n) as [v|] eqn:E.
  - symmetry. apply get_own_In_Some; [exact Hnd'|].
    apply (Permutation_in _ Hperm). now apply get_own_Some_In.
  - destruct (get_own p' n) as [v|] eqn:E'; [|reflexivity].
    apply get_own_Some_In in E'.
    apply (Permutation_in _ (Permutation_sym Hperm)) in E'.
    apply (get_own_In_Some _ _ _ Hnd) in E'. congruence.
Qed.

Lemma check_required_same (p p' : object) (names : list jsstring) :
  (forall n, In n names -> get_own p n = get_own p' n) ->
  check_required p names = check_required p' names.
Proof.
  induction names as [|n names IH]; intros H; [reflexivity|].
  simpl. unfold typeof_get. rewrite (H n (or_introl eq_refl)).
  rewrite IH; [reflexivity|]. intros m Hm. apply H. now right.
Qed.

Lemma check_required_first (p : object) (pre post : list jsstring) (n : jsstring) :
  (forall m, In m pre -> supplies p m = true) -> supplies p n = false ->
  check_required p (pre ++ n :: post)
  = Throw (RequiredError n (required_message n (typeof_get p n))).
Proof.
  induction pre as [|m pre IH]; intros Hpre Hn; simpl.
  - now rewrite accepted_type_supplies, Hn.
  - rewrite accepted_type_supplies, (Hpre m (or_introl eq_refl)). simpl.
    apply IH; [|exact Hn]. intros k Hk. apply Hpre. now right.
Qed.

(** Object literals over positional arguments. *)
Lemma object_literal_keys (names : list string) :
  forall args : list jsval, keys (object_literal names args) = map lit names.
Proof.
  induction names as [|k names IH]; intros args; [reflexivity|].
  simpl. f_equal. apply IH.
Qed.

Lemma object_literal_typed (names : list string) :
  forall args : list jsval,
    List.length args = List.length names -> Forall typed_argument args ->
    Forall (fun e => typed_argument (snd e)) (object_literal names args).
Proof.
  induction names as [|k names IH]; intros args Hlen Hargs; [constructor|].
  destruct args as [|v args]; [discriminate|].
  inversion Hargs; subst. simpl. constructor; [assumption|].
  apply IH; [simpl in Hlen; lia | assumption].
Qed.

Lemma object_literal_optional (names : list string) :
  forall args : list jsval,
    Forall optional_argument args ->
    Forall (fun e => snd e = VUndefined \/ encodable (snd e))
           (object_literal names args).
Proof.
  induction names as [|k names IH]; intros args Hargs; [constructor|].
  simpl. constructor.
  - destruct args as [|v args]; [now left|]. inversion Hargs; subst. assumption.
  - apply IH. destruct args as [|v args]; [constructor|].
    now inversion Hargs.
Qed.

Lemma typed_argument_supplies (p : object) (n : jsstring) (v : jsval) :
  get_own p n = Some v -> typed_argument v ->
  supplies p n = true /\ encodable v.
Proof.
  intros Hget Hv. unfold supplies. rewrite Hget.
  destruct v; try contradiction; split; try reflexivity; exact Hv.
Qed.

(** Values that are plain text. *)
Lemma plain_entry_encoded (e : jsstring * jsval) :
  plain_entry e ->
  encodeURIComponent (snd e) = Return (value_text (snd e))
  /\ plain_text (value_text (snd e)) = true.
Proof.
  intros (_ & s & Hs & Hplain).
  unfold encodeURIComponent, value_text. rewrite Hs. simpl.
  split; [now apply Encode_plain | exact Hplain].
Qed.

Lemma defined_entries_plain (q : object) :
  Forall (fun e => snd e = VUndefined \/ plain_entry e) q ->
  map (fun kv => (form_urlencode (fst kv), form_urlencode (snd kv)))
      (defined_entries q)
  = plain_pairs q.
Proof.
  induction q as [|[k v] q IH]; intros H; [reflexivity|].
  inversion H as [|? ? Hv Hq]; subst.
  rewrite defined_entries_cons, map_app, (IH Hq).
  unfold plain_pairs. cbn [filter snd fst].
  destruct Hv as [Hv | Hv].
  - simpl in Hv. subst v. reflexivity.
  - destruct (plain_entry_encoded _ Hv) as [Henc Hplain].
    destruct Hv as (Hk & _). cbn [fst snd] in *.
    assert (Hpair :
              (form_urlencode (scalar_string k),
               form_urlencode (scalar_string (encoded v)))
              = (k, value_text v)).
    { unfold encoded. rewrite Henc.
      now rewrite !scalar_string_plain, !form_urlencode_plain. }
    destruct v; cbn [is_undefined negb map app fst snd];
      try (rewrite Hpair; reflexivity).
    reflexivity.
Qed.

Lemma plain_entries_encodable (q : object) :
  Forall (fun e => snd e = VUndefined \/ plain_entry e) q ->
  Forall (fun e => snd e = VUndefined \/ encodable (snd e)) q.
Proof.
  intros H. apply (Forall_impl _ (P := fun e => snd e = VUndefined \/ plain_entry e));
    [|exact H].
  intros e [He | He]; [now left | right].
  destruct (plain_entry_encoded _ He) as [Henc _]. eexists. exact Henc.
Qed.

Lemma defined_entries_names (q : object) :
  map fst (defined_entries q)
  = map (fun e => scalar_string (fst e))
        (filter (fun e => negb (is_undefined (snd e))) q).
Proof.
  induction q as [|[k v] q IH]; [reflexivity|].
  rewrite defined_entries_cons, map_app, IH.
  destruct v; reflexivity.
Qed.

(** Substituted values bring none of the characters escaping removes. *)
Lemma count_char_instantiate (c : char16) (p : object) (segs : list segment) :
  encoded_char c = false ->
  (forall n, In n (hole_names segs) -> supplies p n = true) ->
  count_char c (instantiate p segs) = count_char c (literal_text segs).
Proof.
  intros Hc. unfold instantiate, literal_text.
  induction segs as [|[t|n] segs IH]; intros Hall; [reflexivity| |].
  - simpl. rewrite !count_char_app. f_equal. apply IH. exact Hall.
  - simpl. rewrite count_char_app.
    destruct (supplies_get_own _ p n (Hall n (or_introl eq_refl))) as [v Hv].
    rewrite Hv, (count_char_lacks c _ (encoded_lacks _ Number_toString c v Hc)).
    apply IH. intros m Hm. apply Hall. now right.
Qed.

End FurtherEntryProperties.

(** ** The wrappers and what they hand on *)

Section FurtherClientProperties.

Variable number : Type.
Variable Number_toString : number -> jsstring.
Variable URL : Type.
Variable new_URL : jsstring -> jsstring -> completion URL.
Variable payload : Type.
Variable JSON_stringify : payload -> completion jsstring.
Variable json : Type.
Variable JSON_parse : jsstring -> completion json.
Variable fetch : URL -> RequestInit -> completion Response.

Local Abbreviation jsval := (jsval number).
Local Abbreviation object := (object number).
Local Abbreviation encodable := (encodable Number_toString).
Local Abbreviation tame := (tame Number_toString).
Local Abbreviation instantiate := (instantiate Number_toString).
Local Abbreviation defined_entries := (defined_entries Number_toString).
Local Abbreviation substitute_entry := (substitute_entry Number_toString).
Local Abbreviation append_entry := (append_entry Number_toString).
Local Abbreviation typed_argument := (typed_argument Number_toString).
Local Abbreviation optional_argument := (optional_argument Number_toString).
Local Abbreviation plain_pairs := (plain_pairs Number_toString).
Local Abbreviation plain_entry := (plain_entry Number_toString).
Local Abbreviation createUrl := (createUrl Number_toString new_URL).
Local Abbreviation apiRequest := (apiRequest JSON_stringify JSON_parse fetch).
Local Abbreviation endpoint :=
  (endpoint Number_toString new_URL JSON_stringify JSON_parse fetch).
Local Abbreviation call_wrapper :=
  (call_wrapper Number_toString new_URL JSON_stringify JSON_parse fetch).
Local Abbreviation getTask :=
  (getTask Number_toString new_URL JSON_stringify JSON_parse fetch).

(** X1.  [getTask] cannot succeed: it names no value for the placeholder of its
    template, so for every client and whatever the transport would answer it
    throws the RequiredError for [taskId] and gives the transport no call. *)
Theorem getTask_always_throws (client : EverhourApiClient) :
  fst (getTask client)
  = (Throw (RequiredError
              (lit "taskId")
              (lit "Required parameter taskId was undefined or had the wrong type: undefined.")),
     []).
Proof.
  unfold getTask, endpoint. rewrite createUrl_unfold. reflexivity.
Qed.

(** X4.  A wrapper gives the transport at most one call, and none exactly when
    [createUrl] throws or the payload cannot be serialized; with no call made
    the wrapper throws, and with one made its outcome is what the answer to
    that call decides. *)
Theorem endpoint_calls_transport_at_most_once
        (this : EverhourApiClient) (m : method) (path : jsstring)
        (p q : object) (body : option payload) :
  List.length (snd (fst (endpoint this m path p q body))) <= 1
  /\ (snd (fst (endpoint this m path p q body)) = []
      <-> (exists e, fst (createUrl this path p q) = Throw e)
          \/ (exists e, request_options JSON_stringify this m body = Throw e))
  /\ (snd (fst (endpoint this m path p q body)) = [] ->
      exists e, fst (fst (endpoint this m path p q body)) = Throw e)
  /\ (forall url options,
         In (url, options) (snd (fst (endpoint this m path p q body))) ->
         fst (createUrl this path p q) = Return url
         /\ init_method options = m
         /\ fst (fst (endpoint this m path p q body))
            = (response <- fetch url options ;; on_response JSON_parse response)).
Proof.
  unfold endpoint. rewrite createUrl_unfold.
  match goal with
  | |- context [match ?r with Return _ => _ | Throw _ => _ end] =>
    destruct r as [url|e] eqn:Eurl
  end; cbn [fst snd].
  - unfold apiRequest.
    change (request_options JSON_stringify
              (with_extractParams this {| lastIndex := 0 |}) m body)
      with (request_options JSON_stringify this m body).
    destruct (request_options JSON_stringify this m body) as [o|e] eqn:Eopt;
      cbn [fst snd].
    + split; [simpl; lia | split; [|split]].
      * split; [discriminate|]. intros [[e He] | [e He]]; discriminate.
      * discriminate.
      * intros u o' [H | []]. inversion H; subst.
        split; [reflexivity | split; [|reflexivity]].
        unfold request_options in Eopt. destruct body as [b|].
        -- destruct (JSON_stringify b); simpl in Eopt; [|discriminate].
           now inversion Eopt.
        -- now inversion Eopt.
    + split; [simpl; lia | split; [|split]].
      * split; [|reflexivity]. intros _. right. eauto.
      * intros _. eauto.
      * intros u o' [].
  - split; [simpl; lia | split; [|split]].
    + split; [|reflexivity]. intros _. left. eauto.
    + intros _. eauto.
    + intros u o' [].
Qed.

(** X5.  The RequiredError names the first placeholder of the template, in the
    order the placeholders stand in it, that [pathParams] does not supply with
    a string or a number; the order of the entries of [pathParams] has no
    part in it. *)
Theorem createUrl_reports_first_missing
        (this : EverhourApiClient) (path : jsstring) (p q : object)
        (pre post : list jsstring) (n : jsstring) :
  fst (String_match path (extractParams (props this))) = Some (pre ++ n :: post) ->
  (forall m, In m pre -> supplies p m = true) ->
  supplies p n = false ->
  fst (createUrl this path p q)
  = Throw (RequiredError n (required_message n (typeof_get p n))).
Proof.
  rewrite String_match_spec. cbn [fst]. intros Hnames Hpre Hn.
  rewrite createUrl_unfold. cbn [fst].
  assert (Hp : placeholders path = pre ++ n :: post).
  { unfold finish in Hnames. destruct (placeholders path); [discriminate|].
    now inversion Hnames. }
  rewrite Hp, (check_required_first number p pre post n Hpre Hn). reflexivity.
Qed.

(** X6.  For a well-formed template with distinct placeholders, the order of
    the entries of [pathParams] does not matter: two objects with the same
    entries in another order give the same outcome. *)
Theorem createUrl_entry_order_irrelevant
        (this : EverhourApiClient) (segs : list segment) (p p' q : object) :
  wf_template segs = true -> NoDup (hole_names segs) ->
  NoDup (keys p) -> tame p -> Permutation p p' ->
  createUrl this (render segs) p' q = createUrl this (render segs) p q.
Proof.
  intros Hwf Hnames Hkeys Htame Hperm.
  assert (Htame' : tame p').
  { unfold tame in *. exact (Permutation_Forall Hperm Htame). }
  assert (Hget : forall n, get_own p' n = get_own p n).
  { intros n. symmetry. now apply get_own_permutation. }
  rewrite !createUrl_unfold.
  rewrite (check_required_same number p' p (placeholders (render segs)))
    by (intros n _; apply Hget).
  rewrite !forEach_substitute by assumption.
  rewrite !fill_all_first, !render_fill_first_NoDup by assumption.
  rewrite (instantiate_ext number Number_toString segs p' p)
    by (intros n _; apply Hget).
  reflexivity.
Qed.

(** What follows the path once validation and substitution are through. *)
Lemma createUrl_after_substitution
      (this : EverhourApiClient) (path path1 : jsstring) (p q : object) :
  check_required p (placeholders path) = Return tt ->
  forEach substitute_entry p path = Return path1 ->
  Forall (fun e => snd e = VUndefined \/ encodable (snd e)) q ->
  fst (createUrl this path p q)
  = new_URL
      (path1 ++ match defined_entries q with
                | [] => []
                | _ :: _ =>
                  lit "?" ++ join_pairs
                               (map (fun kv => (form_urlencode (fst kv),
                                                form_urlencode (snd kv)))
                                    (defined_entries q))
                end)
      (basePath (props this)).
Proof.
  intros Hcheck Hsubst Hq. rewrite createUrl_unfold. cbn [fst].
  rewrite Hcheck, Hsubst. cbn [bind].
  rewrite (forEach_append number Number_toString q [] Hq). cbn [bind app].
  unfold with_query, params_size. rewrite params_toString_join.
  destruct (defined_entries q); [simpl; now rewrite app_nil_r | reflexivity].
Qed.

(** X7.  Once validation and substitution are through, and when every value of
    [searchParams] is undefined or one that [encodeURIComponent] accepts, the
    query follows the entries of [searchParams]: an entry is left out exactly
    when its value is undefined (null, false, 0 and the empty string are
    sent), the others come in the order of the object as name=value, each
    side in its form-urlencoded writing, joined by [&], and [?] is there
    exactly when one is left. *)
Theorem createUrl_query_follows_entries
        (this : EverhourApiClient) (path path1 : jsstring) (p q : object) :
  check_required p (placeholders path) = Return tt ->
  forEach substitute_entry p path = Return path1 ->
  Forall (fun e => snd e = VUndefined \/ encodable (snd e)) q ->
  fst (createUrl this path p q)
  = new_URL
      (path1 ++ match defined_entries q with
                | [] => []
                | _ :: _ =>
                  lit "?" ++ join_pairs
                               (map (fun kv => (form_urlencode (fst kv),
                                                form_urlencode (snd kv)))
                                    (defined_entries q))
                end)
      (basePath (props this))
  /\ map fst (defined_entries q)
     = map (fun e => scalar_string (fst e))
           (filter (fun e => negb (is_undefined (snd e))) q)
  /\ (defined_entries q = []
      <-> forall e, In e q -> snd e = VUndefined).
Proof.
  intros Hcheck Hsubst Hq. split; [|split].
  - now apply createUrl_after_substitution.
  - apply defined_entries_names.
  - clear. induction q as [|[k v] q IH].
    + split; [intros _ e [] | reflexivity].
    + rewrite defined_entries_cons. split.
      * intros H. apply app_eq_nil in H as [Hv Hq].
        intros e [<- | He]; [|now apply (proj1 IH Hq)].
        destruct v; try discriminate. reflexivity.
      * intros H. rewrite (proj2 IH) by (intros e He; apply H; now right).
        rewrite (H (k, v) (or_introl eq_refl) : v = VUndefined). reflexivity.
Qed.

(** X8.  Entries whose name and text are letters, digits and [* - . _] (dates,
    identifiers, numbers, true and false) reach the query as they are
    written: neither of the two escapings touches them. *)
Theorem createUrl_plain_query_verbatim
        (this : EverhourApiClient) (path path1 : jsstring) (p q : object) :
  check_required p (placeholders path) = Return tt ->
  forEach substitute_entry p path = Return path1 ->
  Forall (fun e => snd e = VUndefined \/ plain_entry e) q ->
  fst (createUrl this path p q)
  = new_URL (path1 ++ match plain_pairs q with
                      | [] => []
                      | _ :: _ => lit "?" ++ join_pairs (plain_pairs q)
                      end)
            (basePath (props this)).
Proof.
  intros Hcheck Hsubst Hq.
  rewrite (createUrl_after_substitution this path path1 p q Hcheck Hsubst)
    by (now apply plain_entries_encodable).
  rewrite <- (defined_entries_plain number Number_toString q Hq).
  destruct (defined_entries q); reflexivity.
Qed.

(** X10.  A value substituted into the path brings no separator with it: for a
    well-formed template with distinct placeholders that are all supplied, and
    a [pathParams] whose names have no [}] and whose values
    [encodeURIComponent] accepts, every character other than [%] and the ones
    [encodeURIComponent] leaves as they are (so [/], [?], [#], [&], [=],
    space, braces, but not [%], which the escapes bring) occurs in the path
    [createUrl] builds as often as in the text of the template outside its
    placeholders. *)
Theorem createUrl_values_add_no_separator
        (this : EverhourApiClient) (segs : list segment) (p q : object) :
  wf_template segs = true -> NoDup (hole_names segs) -> tame p ->
  (forall n, In n (hole_names segs) -> supplies p n = true) ->
  exists path1,
    fst (createUrl this (render segs) p q)
    = (params <- forEach append_entry q [] ;;
       new_URL (with_query path1 params) (basePath (props this)))
    /\ forall c, encoded_char c = false ->
                 count_char c path1 = count_char c (literal_text segs).
Proof.
  intros Hwf Hnames Htame Hall. exists (instantiate p segs). split.
  - rewrite createUrl_wf by assumption.
    now rewrite render_fill_first_NoDup.
  - intros c Hc. now apply count_char_instantiate.
Qed.

(** X9.  When the status is outside [200, 300) the error [apiRequest] throws
    lets the caller read back both the status and the response text, whatever
    characters the text has. *)
Theorem failed_request_can_be_read_back (response : Response) :
  ~ (200 <= status response < 300)%N ->
  exists msg,
    on_response JSON_parse response = Throw (Error msg)
    /\ parse_failure_message msg = Some (status response, response_body response).
Proof.
  intros Hout. unfold on_response.
  destruct ((200 <=? status response)%N && (status response <? 300)%N) eqn:E.
  - exfalso. apply Hout. apply andb_true_iff in E as [E1 E2].
    apply N.leb_le in E1. apply N.ltb_lt in E2. split; assumption.
  - eexists. split; [reflexivity | apply failure_message_read_back].
Qed.

(** X2.  Every wrapper but [getTask], called with arguments of the declared
    types for its path (strings and numbers [encodeURIComponent] accepts) and
    with query arguments that are left out or that it accepts, passes
    validation: its template is well-formed, the names of its path literal are
    the placeholders, and the URL constructor is given the template with each
    placeholder replaced by the encoded argument, then the query.  When the
    URL is built and the payload serialized, the transport gets that one
    call. *)
Theorem wrapper_call_reaches_transport
        (this : EverhourApiClient) (w : wrapper)
        (path_args query_args : list jsval) (body : option payload) :
  In w wrappers -> supplies_its_path w = true ->
  List.length path_args = List.length (path_keys w) ->
  Forall typed_argument path_args ->
  Forall optional_argument query_args ->
  exists segs,
    render segs = lit (wrapper_path w)
    /\ wf_template segs = true
    /\ hole_names segs = map lit (path_keys w)
    /\ fst (createUrl this (lit (wrapper_path w))
                      (object_literal (path_keys w) path_args)
                      (object_literal (query_keys w) query_args))
       = new_URL (with_query
                    (instantiate (object_literal (path_keys w) path_args) segs)
                    (defined_entries (object_literal (query_keys w) query_args)))
                 (basePath (props this))
    /\ forall url options,
        new_URL (with_query
                   (instantiate (object_literal (path_keys w) path_args) segs)
                   (defined_entries (object_literal (query_keys w) query_args)))
                (basePath (props this)) = Return url ->
        request_options JSON_stringify this (wrapper_method w)
                        (if sends_payload w then body else None) = Return options ->
        fst (call_wrapper w this path_args query_args body)
        = (response <- fetch url options ;; on_response JSON_parse response,
           [(url, options)]).
Proof.
  intros Hin Hsup Hlen Hpath Hquery.
  pose proof wrappers_checked as Hall. rewrite forallb_forall in Hall.
  specialize (Hall w Hin). rewrite Hsup in Hall. simpl in Hall.
  unfold wrapper_checked in Hall.
  destruct (parse_template (lit (wrapper_path w))) as [segs|] eqn:Eparse;
    [|discriminate].
  apply andb_true_iff in Hall as [Hnd Heq].
  apply nodupb_NoDup in Hnd. apply names_eqb_eq in Heq.
  destruct (parse_template_sound _ _ Eparse) as [Hrender Hwf].
  set (p := object_literal (path_keys w) path_args) in *.
  set (q := object_literal (query_keys w) query_args) in *.
  assert (Hkeys : keys p = hole_names segs)
    by (unfold p; now rewrite object_literal_keys, Heq).
  assert (Htyped : Forall (fun e => typed_argument (snd e)) p)
    by (now apply object_literal_typed).
  rewrite Forall_forall in Htyped.
  assert (Hsupplied : forall n, In n (hole_names segs) -> supplies p n = true).
  { intros n Hn. rewrite <- Hkeys in Hn.
    destruct (get_own_keys number p n Hn) as [v Hv].
    apply (typed_argument_supplies number Number_toString p n v Hv).
    apply (Htyped (n, v)). now apply get_own_Some_In. }
  assert (Htame : tame p).
  { apply Forall_forall. intros [k v] He. split.
    - cbn [fst]. apply (wf_hole_names segs k Hwf). rewrite <- Hkeys.
      change k with (fst (k, v)). now apply in_map.
    - cbn [snd]. specialize (Htyped (k, v) He). cbn [snd] in Htyped.
      destruct v; try contradiction; exact Htyped. }
  assert (Hurl :
            fst (createUrl this (lit (wrapper_path w)) p q)
            = new_URL (with_query (instantiate p segs) (defined_entries q))
                      (basePath (props this))).
  { rewrite <- Hrender. rewrite createUrl_wf by assumption.
    rewrite render_fill_first_NoDup by assumption.
    rewrite (forEach_append number Number_toString q [])
      by (now apply object_literal_optional).
    reflexivity. }
  exists segs. repeat (split; [assumption|]).
  intros url options Hnew Hopt.
  unfold call_wrapper, endpoint. fold p q.
  pose proof Hurl as Hurl'. rewrite Hnew, createUrl_unfold in Hurl'.
  cbn [fst] in Hurl'. rewrite createUrl_unfold, Hurl'.
  unfold apiRequest.
  change (request_options JSON_stringify
            (with_extractParams this {| lastIndex := 0 |})
            (wrapper_method w) (if sends_payload w then body else None))
    with (request_options JSON_stringify this (wrapper_method w)
                          (if sends_payload w then body else None)).
  rewrite Hopt. reflexivity.
Qed.

(** X3.  No wrapper that uses GET passes a payload on: whatever a GET wrapper
    is called with, the call it gives the transport has method GET and no
    body. *)
Theorem get_wrappers_send_no_body
        (this : EverhourApiClient) (w : wrapper)
        (path_args query_args : list jsval) (body : option payload)
        (url : URL) (options : RequestInit) :
  In w wrappers -> wrapper_method w = GET ->
  In (url, options) (snd (fst (call_wrapper w this path_args query_args body))) ->
  init_method options = GET /\ init_body options = None.
Proof.
  intros Hin Hget.
  pose proof wrappers_get_no_payload as Hall. rewrite forallb_forall in Hall.
  specialize (Hall w Hin). rewrite Hget in Hall. apply negb_true_iff in Hall.
  unfold call_wrapper, endpoint. rewrite Hall, Hget, createUrl_unfold.
  match goal with
  | |- context [match ?r with Return _ => _ | Throw _ => _ end] => destruct r
  end; cbn [fst snd]; [|intros []].
  intros [H | []]. inversion H; subst. split; reflexivity.
Qed.

End FurtherClientProperties.

(* ================================================================= *)
(** * The statements on concrete calls *)

Import Sample.

Lemma C1_witness :
  fst (createUrl client (lit "/users/{userId}/timecards/{date}")
                 [(lit "userId", VBoolean true); (lit "date", str "2020-12-31")]
                 [(lit "q", VSymbol)])
  = Throw (RequiredError
             (lit "userId")
             (lit "Required parameter userId was undefined or had the wrong type: boolean."))
  /\ forall m body,
      fst (endpoint {| status := 200; response_body := lit "{}" |}
                    client m (lit "/users/{userId}/timecards/{date}")
                    [(lit "userId", VBoolean true); (lit "date", str "2020-12-31")]
                    [(lit "q", VSymbol)] body)
      = (Throw (RequiredError
                  (lit "userId")
                  (lit "Required parameter userId was undefined or had the wrong type: boolean.")),
         []).
Proof.
  destruct (C1_missing_parameter_is_required_error
              number Number_toString URL new_URL payload JSON_stringify json JSON_parse
              (fetch {| status := 200; response_body := lit "{}" |})
              client (lit "/users/{userId}/timecards/{date}")
              [(lit "userId", VBoolean true); (lit "date", str "2020-12-31")]
              [(lit "q", VSymbol)] (lit "userId"))
    as (n' & Hin & Hs & _ & Hc & _ & Hb & _ & He).
  - vm_compute. left. reflexivity.
  - reflexivity.
  - assert (Hn : n' = lit "userId").
    { vm_compute in Hin. destruct Hin as [H | [H | []]]; subst n'.
      - reflexivity.
      - vm_compute in Hs. discriminate Hs. }
    subst n'. split.
    + etransitivity; [exact Hc|]. rewrite (Hb true) by reflexivity. reflexivity.
    + intros m body. etransitivity; [exact (He m body)|].
      rewrite (Hb true) by reflexivity. reflexivity.
Defined.

(** C2.  [getAllClients(client, "a b")] builds the query [query=a%2520b]: the
    value is escaped by [encodeURIComponent] and the result is escaped again
    when the search parameters are serialized, so a server that decodes once
    reads [a%20b].  A path value goes through one escaping only. *)
Theorem C2_query_value_encoded_twice :
  fst (createUrl client (lit "/clients") [] [(lit "query", str "a b")])
  = Return (url "/clients?query=a%2520b")
  /\ fst (createUrl client (lit "/clients/{clientId}") [(lit "clientId", str "a b")] [])
     = Return (url "/clients/a%20b")
  /\ encodeURIComponent Number_toString (str "a b") = Return (lit "a%20b").
Proof. repeat split; vm_compute; reflexivity. Qed.

(** C3 as the specification states it fails on a string value with an unpaired
    surrogate, on a template whose braces nest, on an entry whose name spans
    two holes, and on a query value with an unpaired surrogate. *)
Lemma C3_counterexample :
  (NoDup (placeholders (lit "/users/{userId}"))
   /\ supplies [(lit "userId", lone_surrogate)] (lit "userId") = true
   /\ placeholders (lit "/users/{userId}") = [lit "userId"]
   /\ fst (createUrl client (lit "/users/{userId}") [(lit "userId", lone_surrogate)] [])
      = Throw URIError)
  /\ (NoDup (placeholders (lit "{a{b}{b}"))
      /\ placeholders (lit "{a{b}{b}") = [lit "a{b"; lit "b"]
      /\ fst (createUrl client (lit "{a{b}{b}")
                        [(lit "b", str "1"); (lit "a{b", str "2")] [])
         = Return (url "{a1{b}")
      /\ placeholders (lit "{a1{b}") = [lit "a1{b"])
  /\ (placeholders (lit "{a}/{y}/{b}") = [lit "a"; lit "y"; lit "b"]
      /\ fst (createUrl client (lit "{a}/{y}/{b}")
                        [(lit "y", str "Q"); (lit "a}/Q/{b", str "Z");
                         (lit "a", str "1"); (lit "b", str "2")] [])
         = Return (url "Z"))
  /\ (placeholders (lit "/users/{userId}") = [lit "userId"]
      /\ supplies [(lit "userId", num 7)] (lit "userId") = true
      /\ fst (createUrl client (lit "/users/{userId}") [(lit "userId", num 7)]
                        [(lit "query", lone_surrogate)])
         = Throw URIError).
Proof.
  repeat split; try (vm_compute; reflexivity);
    repeat constructor; vm_compute; intuition discriminate.
Qed.

Lemma C3_witness :
  fst (createUrl client (render [Lit (lit "/users/"); Hole (lit "userId");
                                 Lit (lit "/timecards/"); Hole (lit "date")])
                 [(lit "date", str "2020/12/31"); (lit "userId", num 4096)]
                 [(lit "from", str "2020-01-01"); (lit "to", VUndefined)])
  = Return (url "/users/4096/timecards/2020%2F12%2F31?from=2020-01-01")
  /\ placeholders (lit "/users/4096/timecards/2020%2F12%2F31") = [].
Proof.
  pose proof (C3_placeholders_filled
                number Number_toString URL new_URL client
                [Lit (lit "/users/"); Hole (lit "userId");
                 Lit (lit "/timecards/"); Hole (lit "date")]
                [(lit "date", str "2020/12/31"); (lit "userId", num 4096)]
                [(lit "from", str "2020-01-01"); (lit "to", VUndefined)]) as H.
  destruct H as (H1 & H2 & _).
  - reflexivity.
  - repeat constructor; simpl; intuition discriminate.
  - repeat constructor; eexists; reflexivity.
  - intros n [<- | [<- | []]]; reflexivity.
  - repeat (apply Forall_cons;
            [first [left; reflexivity | right; eexists; reflexivity] |]).
    apply Forall_nil.
  - split; [exact H1 | exact H2].
Defined.

(** C4 as the specification states it fails on a response in the range whose
    body is not JSON text, the empty body of a 204 for one: the call throws
    the SyntaxError of the decoding and returns nothing. *)
Lemma C4_counterexample :
  (200 <= status {| status := 204; response_body := [] |} < 300)%N
  /\ fetch {| status := 204; response_body := [] |} (url "/tasks/abc")
           {| init_method := DELETE; init_headers := headers client;
              init_body := None |}
     = Return {| status := 204; response_body := [] |}
  /\ fst (apiRequest {| status := 204; response_body := [] |}
                     client DELETE (url "/tasks/abc") None)
     = Throw SyntaxError
  /\ forall v,
      fst (apiRequest {| status := 204; response_body := [] |}
                      client DELETE (url "/tasks/abc") None)
      <> Return v.
Proof.
  split; [simpl; lia|]. split; [reflexivity|]. split; [reflexivity|].
  intros v. discriminate.
Qed.

Lemma C4_witness :
  fst (apiRequest {| status := 404; response_body := lit "not found" |}
                  client DELETE (url "/tasks/abc") None)
  = Throw (Error (lit "Status: 404, Text: 'not found'")).
Proof.
  refine (proj1 (proj2 (C4_status_decides_outcome
                          URL payload JSON_stringify json JSON_parse
                          (fetch {| status := 404; response_body := lit "not found" |})
                          client DELETE (url "/tasks/abc") None
                          {| init_method := DELETE; init_headers := headers client;
                             init_body := None |}
                          {| status := 404; response_body := lit "not found" |}
                          eq_refl eq_refl)) _).
  simpl. lia.
Defined.

(** C5 as the specification states it fails on the empty key: the constructor
    takes it. *)
Lemma C5_counterexample :
  new_EverhourApiClient (lit "")
  = Return {| props := initial_props;
              headers := {| fields := [ (lit "Content-Type", lit "application/json");
                                        (lit "X-Api-Key", []);
                                        (lit "X-Accept-Version", lit "1.2") ];
                            extensible := false;
                            writable := false |} |}.
Proof. reflexivity. Qed.

(** C7 as the specification states it fails on a GET call given a payload: the
    request carries it. *)
Lemma C7_counterexample :
  snd (apiRequest {| status := 200; response_body := lit "{}" |}
                  client GET (url "/users/me") (Some (lit "{}")))
  = [ (url "/users/me",
       {| init_method := GET; init_headers := headers client;
          init_body := Some (lit "{}") |}) ]
  /\ snd (apiRequest {| status := 200; response_body := lit "{}" |}
                     client GET (url "/users/me") (Some (lit "{}")))
     <> snd (apiRequest {| status := 200; response_body := lit "{}" |}
                        client GET (url "/users/me") None).
Proof. split; [reflexivity | discriminate]. Qed.

(** C8 as the specification states it fails on an extra entry whose value
    [encodeURIComponent] rejects, on an extra entry whose name spans two
    holes, and on a template whose braces nest. *)
Lemma C8_counterexample :
  (placeholders (lit "/users/{userId}") = [lit "userId"]
   /\ fst (createUrl client (lit "/users/{userId}") [(lit "userId", num 7)] [])
      = Return (url "/users/7")
   /\ fst (createUrl client (lit "/users/{userId}")
                     [(lit "userId", num 7); (lit "note", lone_surrogate)] [])
      = Throw URIError
   /\ fst (createUrl client (lit "/users/{userId}")
                     [(lit "userId", num 7); (lit "note", VSymbol)] [])
      = Throw TypeError)
  /\ (placeholders (lit "{a}/{y}/{b}") = [lit "a"; lit "y"; lit "b"]
      /\ fst (createUrl client (lit "{a}/{y}/{b}")
                        [(lit "y", str "Q"); (lit "a", str "1"); (lit "b", str "2")] [])
         = Return (url "1/Q/2")
      /\ fst (createUrl client (lit "{a}/{y}/{b}")
                        [(lit "y", str "Q"); (lit "a}/Q/{b", str "Z");
                         (lit "a", str "1"); (lit "b", str "2")] [])
         = Return (url "Z"))
  /\ (placeholders (lit "{a{b}") = [lit "a{b"]
      /\ fst (createUrl client (lit "{a{b}") [(lit "a{b", str "1")] [])
         = Return (url "1")
      /\ fst (createUrl client (lit "{a{b}") [(lit "b", str "X"); (lit "a{b", str "1")] [])
         = Return (url "{aX")).
Proof. repeat split; vm_compute; reflexivity. Qed.

Lemma C8_witness :
  createUrl client (render [Lit (lit "/tasks/"); Hole (lit "taskId"); Lit (lit "/time")])
            [(lit "debug", VBoolean true); (lit "taskId", str "abc");
             (lit "note", str "x y")]
            [(lit "from", str "2020-01-01")]
  = createUrl client (render [Lit (lit "/tasks/"); Hole (lit "taskId"); Lit (lit "/time")])
              [(lit "taskId", str "abc")]
              [(lit "from", str "2020-01-01")].
Proof.
  apply (C8_extra_entries_ignored number Number_toString URL new_URL).
  - reflexivity.
  - apply extra_added; [reflexivity | split; [reflexivity | eexists; reflexivity] |].
    apply extra_kept.
    apply extra_added; [reflexivity | split; [reflexivity | eexists; reflexivity] |].
    apply extra_none.
Defined.

(** The same with a base mapping that has an entry whose name spans two
    holes: the added entry still changes nothing. *)
Example C8_on_spanning_entry :
  createUrl client (render [Hole (lit "a"); Lit (lit "/"); Hole (lit "y");
                            Lit (lit "/"); Hole (lit "b")])
            [(lit "y", str "Q"); (lit "a}/Q/{b", str "Z");
             (lit "note", str "x y"); (lit "a", str "1"); (lit "b", str "2")] []
  = createUrl client (render [Hole (lit "a"); Lit (lit "/"); Hole (lit "y");
                              Lit (lit "/"); Hole (lit "b")])
              [(lit "y", str "Q"); (lit "a}/Q/{b", str "Z");
               (lit "a", str "1"); (lit "b", str "2")] [].
Proof. vm_compute. reflexivity. Qed.



(** The scenarios of the specification. *)
Example scenario_build :
  fst (createUrl client (lit "/tasks/{taskId}/time") [(lit "taskId", str "abc")]
                 [(lit "from", str "2020-01-01"); (lit "to", VUndefined)])
  = Return (url "/tasks/abc/time?from=2020-01-01").
Proof. vm_compute. reflexivity. Qed.

Example scenario_duplicate :
  fst (createUrl client (lit "/a/{x}/b/{x}") [(lit "x", num 5)] [])
  = Return (url "/a/5/b/{x}").
Proof. vm_compute. reflexivity. Qed.

Example scenario_post :
  apiRequest {| status := 201; response_body := lit "{}" |}
             client POST (url "/clients") (Some (lit "{}"))
  = (Return (lit "{}"),
     [ (url "/clients",
        {| init_method := POST; init_headers := headers client;
           init_body := Some (lit "{}") |}) ]).
Proof. vm_compute. reflexivity. Qed.

(** ** The further properties on concrete calls *)

Lemma wrapper_call_witness :
  exists segs,
    render segs = lit (wrapper_path deleteTimecard_wrapper)
    /\ wf_template segs = true
    /\ hole_names segs = map lit (path_keys deleteTimecard_wrapper)
    /\ fst (createUrl client (lit (wrapper_path deleteTimecard_wrapper))
                      (object_literal (path_keys deleteTimecard_wrapper)
                                      [num 7; str "2020-12-31"])
                      (object_literal (query_keys deleteTimecard_wrapper) []))
       = new_URL (with_query
                    (instantiate Number_toString
                       (object_literal (path_keys deleteTimecard_wrapper)
                                       [num 7; str "2020-12-31"]) segs)
                    (defined_entries Number_toString
                       (object_literal (query_keys deleteTimecard_wrapper) [])))
                 (basePath (props client))
    /\ forall u options,
        new_URL (with_query
                   (instantiate Number_toString
                      (object_literal (path_keys deleteTimecard_wrapper)
                                      [num 7; str "2020-12-31"]) segs)
                   (defined_entries Number_toString
                      (object_literal (query_keys deleteTimecard_wrapper) [])))
                (basePath (props client)) = Return u ->
        request_options JSON_stringify client
                        (wrapper_method deleteTimecard_wrapper)
                        (if sends_payload deleteTimecard_wrapper
                         then None else None) = Return options ->
        fst (call_wrapper Number_toString new_URL JSON_stringify JSON_parse
                          (fetch {| status := 200; response_body := lit "{}" |})
                          deleteTimecard_wrapper client
                          [num 7; str "2020-12-31"] [] None)
        = (response <- fetch {| status := 200; response_body := lit "{}" |}
                             u options ;;
           on_response JSON_parse response,
           [(u, options)]).
Proof.
  apply (wrapper_call_reaches_transport
           number Number_toString URL new_URL payload JSON_stringify json JSON_parse
           (fetch {| status := 200; response_body := lit "{}" |})
           client deleteTimecard_wrapper [num 7; str "2020-12-31"] [] None).
  - unfold wrappers, deleteTimecard_wrapper. simpl.
    repeat (first [left; reflexivity | right]).
  - reflexivity.
  - reflexivity.
  - repeat constructor; eexists; reflexivity.
  - constructor.
Defined.

Lemma get_wrappers_witness :
  init_method {| init_method := GET; init_headers := headers client;
                 init_body := None |} = GET
  /\ init_body {| init_method := GET; init_headers := headers client;
                  init_body := None |} = None.
Proof.
  apply (get_wrappers_send_no_body
           number Number_toString URL new_URL payload JSON_stringify json JSON_parse
           (fetch {| status := 200; response_body := lit "[]" |})
           client getAllUsers_wrapper [] [] (Some (lit "{}"))
           (url "/team/users")).
  - unfold wrappers, getAllUsers_wrapper. simpl.
    repeat (first [left; reflexivity | right]).
  - reflexivity.
  - vm_compute. left. reflexivity.
Defined.

Lemma first_missing_witness :
  fst (createUrl client (lit "/users/{userId}/timecards/{date}")
                 [(lit "userId", num 7)] [])
  = Throw (RequiredError (lit "date")
             (required_message (lit "date")
                (typeof_get [(lit "userId", num 7)] (lit "date")))).
Proof.
  apply (createUrl_reports_first_missing
           number Number_toString URL new_URL client
           (lit "/users/{userId}/timecards/{date}") [(lit "userId", num 7)] []
           [lit "userId"] [] (lit "date")).
  - reflexivity.
  - intros m [<- | []]. reflexivity.
  - reflexivity.
Defined.

Lemma entry_order_witness :
  createUrl client
            (render [Lit (lit "/users/"); Hole (lit "userId");
                     Lit (lit "/timecards/"); Hole (lit "date")])
            [(lit "date", str "2020-12-31"); (lit "userId", num 7)] []
  = createUrl client
              (render [Lit (lit "/users/"); Hole (lit "userId");
                       Lit (lit "/timecards/"); Hole (lit "date")])
              [(lit "userId", num 7); (lit "date", str "2020-12-31")] [].
Proof.
  apply (createUrl_entry_order_irrelevant number Number_toString URL new_URL).
  - reflexivity.
  - repeat constructor; simpl; intuition discriminate.
  - repeat constructor; simpl; intuition discriminate.
  - repeat constructor; eexists; reflexivity.
  - apply perm_swap.
Defined.

Lemma query_follows_entries_witness :
  fst (createUrl client (lit "/projects/{projectId}/tasks")
                 [(lit "projectId", str "as:1")]
                 [(lit "page", VUndefined); (lit "limit", num 0);
                  (lit "excludeClosed", VBoolean false); (lit "query", str "")])
  = new_URL
      (lit "/projects/as%3A1/tasks"
         ++ match defined_entries Number_toString
                  [(lit "page", VUndefined); (lit "limit", num 0);
                   (lit "excludeClosed", VBoolean false); (lit "query", str "")] with
            | [] => []
            | _ :: _ =>
              lit "?" ++ join_pairs
                           (map (fun kv => (form_urlencode (fst kv),
                                            form_urlencode (snd kv)))
                                (defined_entries Number_toString
                                   [(lit "page", VUndefined); (lit "limit", num 0);
                                    (lit "excludeClosed", VBoolean false);
                                    (lit "query", str "")]))
            end)
      (basePath (props client))
  /\ map fst (defined_entries Number_toString
                [(lit "page", VUndefined); (lit "limit", num 0);
                 (lit "excludeClosed", VBoolean false); (lit "query", str "")])
     = map (fun e => scalar_string (fst e))
           (filter (fun e => negb (is_undefined (snd e)))
                   [(lit "page", VUndefined); (lit "limit", num 0);
                    (lit "excludeClosed", VBoolean false); (lit "query", str "")])
  /\ (defined_entries Number_toString
        [(lit "page", VUndefined); (lit "limit", num 0);
         (lit "excludeClosed", VBoolean false); (lit "query", str "")] = []
      <-> forall e,
          In e [(lit "page", VUndefined); (lit "limit", num 0);
                (lit "excludeClosed", VBoolean false); (lit "query", str "")] ->
          snd e = VUndefined).
Proof.
  apply (createUrl_query_follows_entries number Number_toString URL new_URL).
  - reflexivity.
  - reflexivity.
  - repeat (apply Forall_cons;
            [first [left; reflexivity | right; eexists; reflexivity] |]).
    apply Forall_nil.
Defined.

Example query_follows_entries_run :
  fst (createUrl client (lit "/projects/{projectId}/tasks")
                 [(lit "projectId", str "as:1")]
                 [(lit "page", VUndefined); (lit "limit", num 0);
                  (lit "excludeClosed", VBoolean false); (lit "query", str "")])
  = Return (url "/projects/as%3A1/tasks?limit=0&excludeClosed=false&query=").
Proof. vm_compute. reflexivity. Qed.

Lemma plain_query_witness :
  fst (createUrl client (lit "/team/time") []
                 [(lit "from", str "2020-01-01"); (lit "to", VUndefined);
                  (lit "limit", num 50)])
  = new_URL (lit "/team/time"
               ++ match plain_pairs Number_toString
                        [(lit "from", str "2020-01-01"); (lit "to", VUndefined);
                         (lit "limit", num 50)] with
                  | [] => []
                  | _ :: _ =>
                    lit "?" ++ join_pairs
                                 (plain_pairs Number_toString
                                    [(lit "from", str "2020-01-01");
                                     (lit "to", VUndefined); (lit "limit", num 50)])
                  end)
            (basePath (props client)).
Proof.
  apply (createUrl_plain_query_verbatim number Number_toString URL new_URL).
  - reflexivity.
  - reflexivity.
  - repeat (apply Forall_cons;
            [first [left; reflexivity
                   | right; split; [reflexivity | eexists; split; reflexivity]] |]).
    apply Forall_nil.
Defined.

Lemma no_separator_witness :
  exists path1,
    fst (createUrl client
                   (render [Lit (lit "/invoices/"); Hole (lit "invoiceId");
                            Lit (lit "/"); Hole (lit "status")])
                   [(lit "invoiceId", num 12); (lit "status", str "paid/../x?y#z")] [])
    = (params <- forEach (append_entry Number_toString) [] [] ;;
       new_URL (with_query path1 params) (basePath (props client)))
    /\ forall c, encoded_char c = false ->
                 count_char c path1
                 = count_char c (literal_text
                                   [Lit (lit "/invoices/"); Hole (lit "invoiceId");
                                    Lit (lit "/"); Hole (lit "status")]).
Proof.
  apply (createUrl_values_add_no_separator number Number_toString URL new_URL).
  - reflexivity.
  - repeat constructor; simpl; intuition discriminate.
  - repeat constructor; eexists; reflexivity.
  - intros n [<- | [<- | []]]; reflexivity.
Defined.

Lemma read_back_witness :
  exists msg,
    on_response JSON_parse {| status := 404; response_body := lit "it's 'gone', Text: '" |}
    = Throw (Error msg)
    /\ parse_failure_message msg = Some (404%N, lit "it's 'gone', Text: '").
Proof.
  apply (failed_request_can_be_read_back json JSON_parse
           {| status := 404; response_body := lit "it's 'gone', Text: '" |}).
  simpl. lia.
Defined.

Lemma extracted_names_witness :
  lit "a{b" <> []
  /\ has_char RBRACE (lit "a{b") = false
  /\ exists a b, lit "{a{b}{b}" = a ++ token (lit "a{b") ++ b.
Proof.
  apply (extracted_names_are_tokens (lit "{a{b}{b}") {| lastIndex := 3 |} (lit "a{b")).
  exists [lit "a{b"; lit "b"]. split; [reflexivity | left; reflexivity].
Defined.
